(** * Giada: the action recorder

    A shallow embedding of [src/core/actions/actionRecorder.cpp] and of the
    parts of the action store it drives, with the properties of the
    recording protocol proved over it.

    Conventions.
    - [ID] and [Frame] are signed C++ integers; they are taken in [Z].
      Signed overflow is undefined in C++ and is not given a meaning here:
      the frame arithmetic of the recorder (one addition or subtraction per
      call) is read in [Z].
    - [float] is IEEE-754 binary32 with round-to-nearest-even, evaluated in
      single precision (the Standard Library's [SpecFloat] at precision 24).
    - A failed [assert], a null dereference, [std::unordered_map::at] on a
      missing key and an undefined float-to-int conversion all stop the call:
      an operation is a function [State -> option (A * State)] and these are
      [None].
    - [actions.cpp], [actionFactory.cpp], [midiEvent.h] and the model are not
      part of the sources at hand; what the recorder needs of them is
      modelled from the specification and marked as such. *)

From Stdlib Require Import ZArith Floats.SpecFloat.
From stdpp Require Import gmap list.

Open Scope Z_scope.

(** ** Single-precision arithmetic *)

Module F32.

Definition prec : Z := 24.
Definition emax : Z := 128.

Definition float : Type := spec_float.

(** [(float)z] *)
Definition of_int (z : Z) : float := binary_normalize prec emax z 0 false.

Definition mul : float -> float -> float := SFmul prec emax.
Definition div : float -> float -> float := SFdiv prec emax.
Definition eqb : float -> float -> bool := SFeqb.

(** [1.0f] *)
Definition one : float := of_int 1.

Definition int_min : Z := - 2 ^ 31.
Definition int_max : Z := 2 ^ 31 - 1.

Definition in_int (z : Z) : option Z :=
  if decide (int_min <= z <= int_max) then Some z else None.

(** The integer part of a finite float, rounded toward zero. *)
Definition trunc (x : float) : option Z :=
  match x with
  | S754_zero _ => Some 0
  | S754_finite s m e =>
      Some (cond_Zopp s (if decide (0 <= e) then Z.pos m * 2 ^ e
                         else Z.pos m / 2 ^ (- e)))
  | _ => None
  end.

(** The integer part of a finite float, rounded toward minus infinity. *)
Definition floor (x : float) : option Z :=
  match x with
  | S754_zero _ => Some 0
  | S754_finite s m e =>
      Some (if decide (0 <= e) then cond_Zopp s (Z.pos m) * 2 ^ e
            else cond_Zopp s (Z.pos m) / 2 ^ (- e))
  | _ => None
  end.

(** The nearest integer to a finite float, halves away from zero (C's
    [roundf]). *)
Definition round (x : float) : option Z :=
  match x with
  | S754_zero _ => Some 0
  | S754_finite s m e =>
      Some (cond_Zopp s (if decide (0 <= e) then Z.pos m * 2 ^ e
                         else (2 * Z.pos m + 2 ^ (- e)) / 2 ^ (- e + 1)))
  | _ => None
  end.

(** [static_cast<int>(x)]: defined when the truncated value fits an [int]. *)
Definition to_int (x : float) : option Z := trunc x ≫= in_int.

(** [floorf(x)] converted to [int]. *)
Definition floor_to_int (x : float) : option Z := floor x ≫= in_int.

(** [roundf(x)] converted to [int]. *)
Definition round_to_int (x : float) : option Z := round x ≫= in_int.

End F32.

(** ** Data model *)

(** The types [ID] and [Frame] ([core/types.h] is missing): integers, and
    signed ones, since [fixVerticalEnvActions] returns the frame -1. *)
Abbreviation ID := Z.
Abbreviation Frame := Z.

(** Modelled from the spec: the status kinds of [MidiEvent] ([midiEvent.h] is
    missing): "status kind ∈ {NOTE_ON, NOTE_OFF, CONTROL_CHANGE}". *)
Inductive Status : Type :=
  | CHANNEL_NOTE_ON
  | CHANNEL_NOTE_OFF
  | CHANNEL_CC.

Global Instance Status_eq_dec : EqDecision Status.
Proof. solve_decision. Defined.

(** Modelled from the spec: [MidiEvent] ([midiEvent.h] is missing), "a
    3-field MIDI-style message": status kind, primary data byte (note or
    controller number), secondary data byte (velocity or value). *)
Record MidiEvent : Type := makeFrom3Bytes {
  getStatus : Status;
  getNote : Z;
  getVelocity : Z
}.

Global Instance MidiEvent_eq_dec : EqDecision MidiEvent.
Proof. solve_decision. Defined.

Definition isNoteOnOff (e : MidiEvent) : bool :=
  bool_decide (getStatus e = CHANNEL_NOTE_ON ∨ getStatus e = CHANNEL_NOTE_OFF).

(** Modelled from the spec: [Action] ([action.h] is missing), serialised as
    [{id, channelId, frame, event, prevId, nextId}]; a link of 0 is absent.
    The [prev] and [next] pointers of the C++ struct are not fields: they are
    the links resolved in the committed store ([prevOf], [nextOf] below). *)
Record Action : Type := mkAction {
  id : ID;
  channelId : ID;
  frame : Frame;
  event : MidiEvent;
  prevId : ID;
  nextId : ID
}.

Global Instance Action_eq_dec : EqDecision Action.
Proof. solve_decision. Defined.

(** [Action{}]: the default, invalid action. *)
Definition noAction : Action :=
  mkAction 0 0 0 (makeFrom3Bytes CHANNEL_NOTE_ON 0 0) 0 0.

Definition isValid (a : Action) : bool := bool_decide (id a ≠ 0).

Definition setId (i : ID) (a : Action) : Action :=
  mkAction i (channelId a) (frame a) (event a) (prevId a) (nextId a).
Definition setChannelId (c : ID) (a : Action) : Action :=
  mkAction (id a) c (frame a) (event a) (prevId a) (nextId a).
Definition setFrame (f : Frame) (a : Action) : Action :=
  mkAction (id a) (channelId a) f (event a) (prevId a) (nextId a).
Definition setPrevId (p : ID) (a : Action) : Action :=
  mkAction (id a) (channelId a) (frame a) (event a) p (nextId a).
Definition setNextId (n : ID) (a : Action) : Action :=
  mkAction (id a) (channelId a) (frame a) (event a) (prevId a) n.
Definition setEvent (e : MidiEvent) (a : Action) : Action :=
  mkAction (id a) (channelId a) (frame a) e (prevId a) (nextId a).


(** Modelled from the spec: [actionFactory::makeAction] ([actionFactory.cpp]
    is missing): "constructors for action records from raw event data"; the
    new action is unlinked. *)
Definition makeAction (i c : ID) (f : Frame) (e : MidiEvent) : Action :=
  mkAction i c f e 0 0.

(** Modelled from the spec: the intents of [Model::swap] (the model is
    missing): a "structural swap", [HARD], and a "value-only swap", [SOFT]. *)
Inductive SwapType : Type := HARD | SOFT.

(** The state the recorder works on. *)
Record State : Type := mkState {
  (** the committed store, [m_actions], in traversal order *)
  m_actions : list Action;
  (** the live-recording buffer, [m_liveActions] *)
  m_liveActions : list Action;
  (** the last id handed out by [actionFactory] *)
  lastActionId : ID;
  (** [Channel::hasActions], by channel id *)
  channelHasActions : gmap Z bool;
  (** the swaps requested from the model, oldest first *)
  swaps : list SwapType
}.

Definition setActions (l : list Action) (st : State) : State :=
  mkState l (m_liveActions st) (lastActionId st) (channelHasActions st) (swaps st).
Definition setLiveActions (l : list Action) (st : State) : State :=
  mkState (m_actions st) l (lastActionId st) (channelHasActions st) (swaps st).
Definition setLastActionId (i : ID) (st : State) : State :=
  mkState (m_actions st) (m_liveActions st) i (channelHasActions st) (swaps st).
Definition setChannelHasActions (m : gmap Z bool) (st : State) : State :=
  mkState (m_actions st) (m_liveActions st) (lastActionId st) m (swaps st).
Definition setSwaps (s : list SwapType) (st : State) : State :=
  mkState (m_actions st) (m_liveActions st) (lastActionId st) (channelHasActions st) s.

(** ** Operations: state passing with failure *)

Definition M (A : Type) : Type := State -> option (A * State).

Global Instance M_ret : MRet M := λ A x st, Some (x, st).
Global Instance M_bind : MBind M := λ A B f m st,
  match m st with
  | Some (x, st') => f x st'
  | None => None
  end.

Definition fail {A : Type} : M A := λ _, None.
Definition get : M State := λ st, Some (st, st).
Definition modify (f : State -> State) : M unit := λ st, Some (tt, f st).

(** [assert(b)] *)
Definition assert (b : bool) : M unit := if b then mret tt else fail.

(** [*p] for a pointer that may be null *)
Definition deref {A : Type} (p : option A) : M A :=
  match p with
  | Some x => mret x
  | None => fail
  end.

(** ** The collaborators of the recorder *)

Module actionFactory.

(** Modelled from the spec: [actionFactory::getNewActionId]
    ([actionFactory.cpp] is missing), the "allocator of globally-unique
    action identifiers", ids being "unique, monotonically allocated": the
    next id is one more than the last one handed out. *)
Definition getNewActionId : M ID := λ st,
  let i := lastActionId st + 1 in Some (i, setLastActionId i st).

End actionFactory.

Module Model.

(** Modelled from the spec: [m_model.get().getChannel(c).hasActions = b]
    (the model is missing), the "[hasActions] summary flag" of the channel. *)
Definition setHasActions (c : ID) (b : bool) : M unit :=
  modify (λ st, setChannelHasActions (<[c := b]> (channelHasActions st)) st).

(** Modelled from the spec: [m_model.swap(t)] (the model is missing): "a
    swap is requested on the State Publisher"; the request is logged. *)
Definition swap (t : SwapType) : M unit :=
  modify (λ st, setSwaps (swaps st ++ [t]) st).

End Model.

Module Actions.

(** The first stored action with the given id. *)
Definition findAction (l : list Action) (i : ID) : option Action :=
  snd <$> list_find (λ a, id a = i) l.

(** The [prev] and [next] pointers of an action: its links "resolved to
    direct back-references" in the store; null when the link is 0 or names
    no stored action. *)
Definition prevOf (l : list Action) (a : Action) : option Action :=
  if decide (prevId a = 0) then None else findAction l (prevId a).
Definition nextOf (l : list Action) (a : Action) : option Action :=
  if decide (nextId a = 0) then None else findAction l (nextId a).

Definition alterById (i : ID) (g : Action -> Action) (l : list Action)
  : list Action :=
  (λ a, if decide (id a = i) then g a else a) <$> l.

(** Modelled from the spec: [Actions::rec(channelId, frame, event)]
    ([actions.cpp] is missing): "inserts one action, assigns a fresh id,
    returns it". *)
Definition rec (c : ID) (f : Frame) (e : MidiEvent) : M Action :=
  i ← actionFactory.getNewActionId;
  let a := makeAction i c f e in
  modify (λ st, setActions (m_actions st ++ [a]) st);;
  mret a.

(** Modelled from the spec: [Actions::rec(channelId, f1, f2, e1, e2)]
    ([actions.cpp] is missing): "inserts a linked pair in one step". *)
Definition rec_pair (c : ID) (f1 f2 : Frame) (e1 e2 : MidiEvent) : M unit :=
  i1 ← actionFactory.getNewActionId;
  i2 ← actionFactory.getNewActionId;
  let a1 := setNextId i2 (makeAction i1 c f1 e1) in
  let a2 := setPrevId i1 (makeAction i2 c f2 e2) in
  modify (λ st, setActions (m_actions st ++ [a1; a2]) st).

(** Modelled from the spec: [Actions::rec(actions)] ([actions.cpp] is
    missing): "bulk-commits pre-built actions ...; does not rewrite ids or
    links". *)
Definition rec_batch (actions : list Action) : M unit :=
  modify (λ st, setActions (m_actions st ++ actions) st).

(** Modelled from the spec: [Actions::deleteAction(id)] ([actions.cpp] is
    missing): "removes one action; fails silently if not found". *)
Definition deleteAction (i : ID) : M unit :=
  modify (λ st, setActions (filter (λ a, id a ≠ i) (m_actions st)) st).

(** Modelled from the spec: [Actions::updateSiblings(id, prevId, nextId)]
    ([actions.cpp] is missing): "rewrites an action's sibling links without
    moving it".  The recorder splices a new envelope point with a single
    call on the new point ("a new interior node is spliced in between the
    neighbors"), so the two siblings named are pointed back at the action
    as well. *)
Definition updateSiblings (i p n : ID) : M unit :=
  modify (λ st, setActions
    (alterById n (setPrevId i)
      (alterById p (setNextId i)
        (alterById i (λ a, setNextId n (setPrevId p a)) (m_actions st)))) st).

(** Modelled from the spec: [Actions::hasActions(channelId[, type])]
    ([actions.cpp] is missing); without a type, any action counts. *)
Definition ofChannelAndType (c : ID) (ty : option Status) (a : Action) : Prop :=
  channelId a = c ∧ from_option (λ t, getStatus (event a) = t) True ty.

Global Instance ofChannelAndType_dec c ty a : Decision (ofChannelAndType c ty a).
Proof. unfold ofChannelAndType. destruct ty; simpl; apply _. Defined.

Definition hasActions (c : ID) (ty : option Status) : M bool :=
  st ← get;
  mret (bool_decide (Exists (ofChannelAndType c ty) (m_actions st))).

(** Modelled from the spec: [Actions::getClosestAction(channelId, f, type)]
    ([actions.cpp] is missing): the "nearest action at or before [frame]"
    among the actions of that channel and type; the invalid action if there
    is none. *)
Definition getClosestAction (c : ID) (f : Frame) (ty : Status) : M Action :=
  st ← get;
  mret (foldl (λ out a,
          if decide (channelId a = c ∧ getStatus (event a) = ty ∧ frame a <= f
                     ∧ (id out = 0 ∨ frame out < frame a))
          then a else out)
        noAction (m_actions st)).

(** Modelled from the spec: [Actions::clearActions(channelId, type)]
    ([actions.cpp] is missing): removes the actions of that type on that
    channel. *)
Definition clearActions (c : ID) (ty : Status) : M unit :=
  modify (λ st, setActions
    (filter (λ a, ¬ (channelId a = c ∧ getStatus (event a) = ty)) (m_actions st)) st).

(** Modelled from the spec: [Actions::updateKeyFrames(f)] ([actions.cpp] is
    missing): "applies a pure frame→frame function to every stored action".
    The function is partial where the C++ one has no defined result. *)
Definition updateKeyFrames (f : Frame -> option Frame) : M unit := λ st,
  (λ l, (tt, setActions l st)) <$>
    mapM (λ a, (λ z, setFrame z a) <$> f (frame a)) (m_actions st).

(** Modelled from the spec: [Actions::deleteAction(currId, nextId)]
    ([actions.cpp] is missing): "removes a linked pair atomically from the
    caller's perspective". *)
Definition deleteAction_pair (i n : ID) : M unit :=
  modify (λ st, setActions (filter (λ a, id a ≠ i ∧ id a ≠ n) (m_actions st)) st).

(** Modelled from the spec: [Actions::updateEvent(id, event)] ([actions.cpp]
    is missing): "replaces payload only". *)
Definition updateEvent (i : ID) (e : MidiEvent) : M unit :=
  modify (λ st, setActions (alterById i (setEvent e) (m_actions st)) st).

End Actions.

(** ** The recorder, [actionRecorder.cpp] *)

(** [ActionRecorder::hasActions], [getClosestAction], [updateSiblings]: plain
    forwarders to the store. *)
Definition hasActions (c : ID) (ty : option Status) : M bool :=
  Actions.hasActions c ty.

Definition getClosestAction (c : ID) (f : Frame) (ty : Status) : M Action :=
  Actions.getClosestAction c f ty.

Definition updateSiblings (i p n : ID) : M unit :=
  Actions.updateSiblings i p n.

(** [ActionRecorder::rec(channelId, frame, e)] *)
Definition rec (c : ID) (f : Frame) (e : MidiEvent) : M Action :=
  Model.setHasActions c true;;
  Actions.rec c f e.

(** [ActionRecorder::rec(channelId, f1, f2, e1, e2)] *)
Definition rec_pair (c : ID) (f1 f2 : Frame) (e1 e2 : MidiEvent) : M unit :=
  Model.setHasActions c true;;
  Actions.rec_pair c f1 f2 e1 e2.

(** [ActionRecorder::clearActions] *)
Definition clearActions (c : ID) (ty : Status) : M unit :=
  Actions.clearActions c ty;;
  b ← hasActions c None;
  Model.setHasActions c b;;
  Model.swap HARD.

(** [ActionRecorder::deleteAction(channelId, id)] *)
Definition deleteAction (c : ID) (i : ID) : M unit :=
  Actions.deleteAction i;;
  b ← hasActions c None;
  Model.setHasActions c b;;
  Model.swap HARD.

(** [ActionRecorder::isBoundaryEnvelopeAction] *)
Definition isBoundaryEnvelopeAction (a : Action) : M bool :=
  st ← get;
  prev ← deref (Actions.prevOf (m_actions st) a);
  next ← deref (Actions.nextOf (m_actions st) a);
  mret (bool_decide (frame prev > frame a) || bool_decide (frame next < frame a)).

(** The function [updateBpm] hands to [updateKeyFrames]. *)
Definition updateBpm_frame (ratio : F32.float) (quantizerStep : Z) (old : Frame)
  : option Frame :=
  frame ← F32.to_int (F32.mul (F32.of_int old) ratio);
  if decide (frame ≠ 0) then
    let delta := Z.rem quantizerStep frame in
    if decide (delta > 0 ∧ delta <= 6) then Some (frame + delta) else Some frame
  else Some frame.

(** [ActionRecorder::updateBpm] *)
Definition updateBpm (ratio : F32.float) (quantizerStep : Z) : M unit :=
  if F32.eqb ratio F32.one then mret tt
  else Actions.updateKeyFrames (updateBpm_frame ratio quantizerStep).

(** The function [updateSamplerate] hands to [updateKeyFrames]. *)
Definition updateSamplerate_frame (ratio : F32.float) (old : Frame) : option Frame :=
  F32.floor_to_int (F32.mul (F32.of_int old) ratio).

(** [ActionRecorder::updateSamplerate] *)
Definition updateSamplerate (systemRate patchRate : Z) : M unit :=
  if decide (systemRate = patchRate) then mret tt
  else
    let ratio := F32.div (F32.of_int systemRate) (F32.of_int patchRate) in
    Actions.updateKeyFrames (updateSamplerate_frame ratio).

(** [std::unordered_map::insert]: the first entry of a key is kept. *)
Definition map_insert_new (k v : ID) (m : gmap Z Z) : gmap Z Z :=
  match m !! k with
  | Some _ => m
  | None => <[k := v]> m
  end.

(** The first loop of [cloneActions]: the visit of the store, which collects
    [cloned], [actions] and [map]. *)
Fixpoint cloneActions_visit (channelId' newChannelId : ID) (l : list Action)
    (acc : bool * list Action * gmap Z Z) : M (bool * list Action * gmap Z Z) :=
  match l with
  | [] => mret acc
  | a :: l' =>
      if decide (channelId a ≠ channelId') then
        cloneActions_visit channelId' newChannelId l' acc
      else
        newActionId ← actionFactory.getNewActionId;
        let '(_, actions, map) := acc in
        let clone := setChannelId newChannelId (setId newActionId a) in
        cloneActions_visit channelId' newChannelId l'
          (true, actions ++ [clone], map_insert_new (id a) newActionId map)
  end.

(** The body of the second loop of [cloneActions]; [map.at] fails on a
    missing key. *)
Definition cloneActions_relink (map : gmap Z Z) (a : Action) : option Action :=
  a ← (if decide (prevId a ≠ 0) then (λ p, setPrevId p a) <$> map !! prevId a
       else Some a);
  if decide (nextId a ≠ 0) then (λ n, setNextId n a) <$> map !! nextId a
  else Some a.

(** [ActionRecorder::cloneActions] *)
Definition cloneActions (channelId' newChannelId : ID) : M bool :=
  st ← get;
  '(cloned, actions, map) ←
    cloneActions_visit channelId' newChannelId (m_actions st) (false, [], ∅);
  actions ← deref (mapM (cloneActions_relink map) actions);
  Actions.rec_batch actions;;
  Model.setHasActions newChannelId true;;
  Model.swap HARD;;
  mret cloned.

(** [ActionRecorder::liveRec] *)
Definition liveRec (c : ID) (e : MidiEvent) (globalFrame : Frame) : M unit :=
  assert (isNoteOnOff e);;
  i ← actionFactory.getNewActionId;
  modify (λ st, setLiveActions (m_liveActions st ++ [makeAction i c globalFrame e]) st).

(** [ActionRecorder::areComposite] *)
Definition areComposite (a1 a2 : Action) : bool :=
  bool_decide (getStatus (event a1) = CHANNEL_NOTE_ON) &&
  bool_decide (getStatus (event a2) = CHANNEL_NOTE_OFF) &&
  bool_decide (getNote (event a1) = getNote (event a2)) &&
  bool_decide (channelId a1 = channelId a2).

(** [ActionRecorder::consolidate(a1, i)] on the live buffer: [a1] is the
    element at index [i]; the scan starts at [i] and stops at the first
    composite partner, whose position is [i + k]. *)
Definition consolidate_at (i : nat) (live : list Action) : list Action :=
  match live !! i with
  | None => live
  | Some a1 =>
      match list_find (λ a2, areComposite a1 a2 = true) (drop i live) with
      | None => live
      | Some (k, a2) =>
          alter (setPrevId (id a1)) (i + k)%nat (alter (setNextId (id a2)) i live)
      end
  end.

(** The first loop of [consolidate()]: every position of the buffer in turn. *)
Definition consolidate_all (live : list Action) : list Action :=
  foldl (λ l i, consolidate_at i l) live (seq 0 (length live)).

(** [ActionRecorder::consolidate()] *)
Definition consolidate : M (gset Z) :=
  modify (λ st, setLiveActions (consolidate_all (m_liveActions st)) st);;
  st ← get;
  Actions.rec_batch (m_liveActions st);;
  let out : gset Z := list_to_set (channelId <$> m_liveActions st) in
  modify (setLiveActions []);;
  mret out.

(** [ActionRecorder::fixVerticalEnvActions] *)
Definition fixVerticalEnvActions (f : Frame) (a1 a2 : Action) : Frame :=
  let f := if decide (frame a1 = f) then f + 1
           else if decide (frame a2 = f) then f - 1
           else f in
  if decide (frame a1 = f ∨ frame a2 = f) then -1 else f.

Section Constants.

(** [core/const.h] is missing: its two constants are parameters. *)
Variable G_MAX_VELOCITY : Z.
Variable G_DEFAULT_ACTION_SIZE : Frame.

(** [ActionRecorder::recordFirstEnvelopeAction] *)
Definition recordFirstEnvelopeAction (c : ID) (f : Frame) (value : Z)
    (lastFrameInLoop : Frame) : M unit :=
  let e1 := makeFrom3Bytes CHANNEL_CC 0 G_MAX_VELOCITY in
  let e2 := makeFrom3Bytes CHANNEL_CC 0 value in
  a1 ← rec c 0 e1;
  a2 ← rec c f e2;
  a3 ← rec c lastFrameInLoop e1;
  updateSiblings (id a1) (id a3) (id a2);;
  updateSiblings (id a2) (id a1) (id a3);;
  updateSiblings (id a3) (id a2) (id a1).

(** [ActionRecorder::recordNonFirstEnvelopeAction] *)
Definition recordNonFirstEnvelopeAction (c : ID) (f : Frame) (value : Z) : M unit :=
  a1 ← getClosestAction c f CHANNEL_CC;
  st ← get;
  let a3 := default noAction (Actions.nextOf (m_actions st) a1) in
  assert (isValid a1);;
  assert (isValid a3);;
  let f := fixVerticalEnvActions f a1 a3 in
  if decide (f = -1) then mret tt
  else
    let e2 := makeFrom3Bytes CHANNEL_CC 0 value in
    a2 ← rec c f e2;
    updateSiblings (id a2) (id a1) (id a3).

(** [ActionRecorder::recordEnvelopeAction] *)
Definition recordEnvelopeAction (c : ID) (f : Frame) (value : Z)
    (lastFrameInLoop : Frame) : M unit :=
  assert (bool_decide (value >= 0 ∧ value <= G_MAX_VELOCITY));;
  b ← hasActions c (Some CHANNEL_CC);
  if negb b then recordFirstEnvelopeAction c f value lastFrameInLoop
  else recordNonFirstEnvelopeAction c f value.

(** [ActionRecorder::recordMidiAction] *)
Definition recordMidiAction (c : ID) (note velocity : Z) (f1 f2 framesInLoop : Frame)
  : M unit :=
  let f2 := if decide (f2 = 0) then f1 + G_DEFAULT_ACTION_SIZE else f2 in
  let overflow := f2 - framesInLoop in
  let '(f1, f2) := if decide (overflow > 0) then (f1 - overflow, f2 - overflow)
                   else (f1, f2) in
  let e1 := makeFrom3Bytes CHANNEL_NOTE_ON note velocity in
  let e2 := makeFrom3Bytes CHANNEL_NOTE_OFF note velocity in
  rec_pair c f1 f2 e1 e2.

End Constants.

(** [ActionRecorder::deleteEnvelopeAction] *)
Definition deleteEnvelopeAction (c : ID) (a : Action) : M unit :=
  b ← isBoundaryEnvelopeAction a;
  if (b : bool) then clearActions c (getStatus (event a))
  else
    st ← get;
    a1 ← deref (Actions.prevOf (m_actions st) a);
    a1prev ← deref (Actions.prevOf (m_actions st) a1);
    a3 ← deref (Actions.nextOf (m_actions st) a);
    a3next ← deref (Actions.nextOf (m_actions st) a3);
    updateSiblings (id a1) (id a1prev) (id a3);;
    updateSiblings (id a3) (id a1) (id a3next);;
    deleteAction c (id a).

(** ** The recorder: editing notes and envelope points *)

(** [ActionRecorder::deleteAction(channelId, currId, nextId)] *)
Definition deleteAction_pair (c : ID) (currId nextId' : ID) : M unit :=
  Actions.deleteAction_pair currId nextId';;
  b ← hasActions c None;
  Model.setHasActions c b;;
  Model.swap HARD.

(** [ActionRecorder::updateEvent] *)
Definition updateEvent (i : ID) (e : MidiEvent) : M unit :=
  Actions.updateEvent i e.


(** [ActionRecorder::deleteSampleAction] *)
Definition deleteSampleAction (c : ID) (a : Action) : M unit :=
  st ← get;
  match Actions.nextOf (m_actions st) a with
  | Some next => deleteAction_pair c (id a) (id next)
  | None => deleteAction c (id a)
  end.


(** [ActionRecorder::updateEnvelopeAction]; [G] is [G_MAX_VELOCITY]. *)
Definition updateEnvelopeAction (G : Z) (c : ID) (a : Action) (f : Frame) (value : Z)
    (lastFrameInLoop : Frame) : M unit :=
  b ← isBoundaryEnvelopeAction a;
  if (b : bool) then updateEvent (id a) (makeFrom3Bytes CHANNEL_CC 0 value)
  else
    deleteEnvelopeAction c a;;
    recordEnvelopeAction G c f value lastFrameInLoop.


(** [ActionRecorder::recordSampleAction]; [size] is [G_DEFAULT_ACTION_SIZE].
    [isSinglePressMode(channelId)] reads the mode of the channel's sample
    player from the model, which is missing: what it returns is the
    parameter [singlePress].  The trigger [type] is one of the status kinds
    of the data model. *)
Definition recordSampleAction (size : Frame) (singlePress : bool) (c : ID)
    (type : Status) (f1 f2 : Frame) : M unit :=
  if singlePress then
    let f2 := if decide (f2 = 0) then f1 + size else f2 in
    let e1 := makeFrom3Bytes CHANNEL_NOTE_ON 0 0 in
    let e2 := makeFrom3Bytes CHANNEL_NOTE_OFF 0 0 in
    rec_pair c f1 f2 e1 e2
  else
    let e1 := makeFrom3Bytes type 0 0 in
    rec c f1 e1;; mret tt.


(** ** The engine, [engine.cpp] *)

(** The callback that [Engine] installs as [m_sequencer.onBpmChange]. *)
Definition onBpmChange (oldVal newVal : F32.float) (quantizerStep : Z) : M unit :=
  updateBpm (F32.div oldVal newVal) quantizerStep.

(** ** The statements of the specification that differ from the code

    Definitions that follow the words of the specification, to be compared
    with the ones above. *)

(** "every action frame [f] is rescaled to [round(f*ratio)], with a collapse
    rule: if [quantizerStep mod f'] is in [(0, 6]], the new frame snaps up by
    that remainder". *)
Definition spec_updateBpm_frame (ratio : F32.float) (quantizerStep : Z) (f : Frame)
  : option Frame :=
  f' ← F32.round_to_int (F32.mul (F32.of_int f) ratio);
  let delta := quantizerStep `mod` f' in
  if decide (0 < delta ∧ delta <= 6) then Some (f' + delta) else Some f'.

(** "every stored action frame [f] is rescaled to
    [floor(f * systemRate/patchRate)]": the floor of the exact quotient. *)
Definition spec_updateSamplerate_frame (systemRate patchRate : Z) (f : Frame) : Frame :=
  (f * systemRate) / patchRate.

(** [z] is the floor of the value of the float [x]: the greatest integer
    that is not above [±m·2^e].  Infinities and NaN have none. *)
Definition floorOf (x : F32.float) (z : Z) : Prop :=
  match x with
  | S754_zero _ => z = 0
  | S754_finite s m e =>
      if decide (0 <= e) then z = cond_Zopp s (Z.pos m) * 2 ^ e
      else z * 2 ^ (- e) <= cond_Zopp s (Z.pos m) < (z + 1) * 2 ^ (- e)
  | _ => False
  end.

(** ** Well-formed states *)

(** Ids handed out so far: every stored or buffered action has an id between
    1 and the last one allocated. *)
Definition ids_allocated (st : State) : Prop :=
  0 <= lastActionId st ∧
  Forall (λ a, 0 < id a <= lastActionId st) (m_actions st ++ m_liveActions st).

(** "Ids are unique across the whole store". *)
Definition ids_unique (st : State) : Prop :=
  NoDup (id <$> m_actions st).

(** The actions of one channel. *)
Definition onChannel (c : ID) (l : list Action) : list Action :=
  filter (λ a, channelId a = c) l.

(** The envelope actions of one channel. *)
Definition envelopeOf (c : ID) (l : list Action) : list Action :=
  filter (λ a, channelId a = c ∧ getStatus (event a) = CHANNEL_CC) l.

(** The frames of a store rescaled by a partial function [g]: the same
    actions in the same order, each with its frame replaced by [g] of it. *)
Definition rescaled (g : Frame -> option Frame) (old new : list Action) : Prop :=
  Forall2 (λ a a', ∃ z, g (frame a) = Some z ∧ a' = setFrame z a) old new.

(** Every non-zero link of the list names an action of the list. *)
Definition links_closed (l : list Action) : Prop :=
  Forall (λ a, (prevId a = 0 ∨ prevId a ∈ id <$> l) ∧
               (nextId a = 0 ∨ nextId a ∈ id <$> l)) l.

(** The id given to the clone of the source action with id [i], when the last
    id allocated before the call is [base] and the source actions are
    [srcs]: ids are handed out in the order of the visit. *)
Definition cloneIdOf (base : ID) (srcs : list Action) (i : ID) : option ID :=
  (λ r, base + 1 + Z.of_nat r.1) <$> list_find (λ x, id x = i) srcs.

(** The image of an action under a renaming [σ] of ids, moved to channel
    [dst]: same frame, same event, links renamed, absent links kept absent. *)
Definition cloneOf (σ : ID -> ID) (dst : ID) (a : Action) : Action :=
  mkAction (σ (id a)) dst (frame a) (event a)
    (if decide (prevId a = 0) then 0 else σ (prevId a))
    (if decide (nextId a = 0) then 0 else σ (nextId a)).

(** The envelope points of one controller of one channel. *)
Definition envelopePoints (c : ID) (controller : Z) (l : list Action) : list Action :=
  filter (λ a, channelId a = c ∧ getStatus (event a) = CHANNEL_CC
               ∧ getNote (event a) = controller) l.

(** "No two envelope actions on the same (channel, controller) share an
    identical frame". *)
Definition no_vertical_points (l : list Action) : Prop :=
  ∀ c controller, NoDup (frame <$> envelopePoints c controller l).

(** The links of the store mirror each other: the action an action points to
    points back at it. *)
Definition links_mirrored (l : list Action) : Prop :=
  Forall (λ x,
    from_option (λ y, prevId y = id x) True (Actions.nextOf l x) ∧
    from_option (λ y, nextId y = id x) True (Actions.prevOf l x)) l.

(** The position of the partner that the scan of [consolidate(a1, i)] finds
    for the action at position [i]: the first position from [i] on whose
    action is composite with it. *)
Definition partner (live : list Action) (i : nat) : option nat :=
  a1 ← live !! i;
  (λ r, (i + r.1)%nat) <$> list_find (λ a2, areComposite a1 a2 = true) (drop i live).

(** The last position below [m] whose partner is [j]. *)
Fixpoint lastSelector (live : list Action) (m : nat) (j : nat) : option nat :=
  match m with
  | O => None
  | S m' => if decide (partner live m' = Some j) then Some m'
            else lastSelector live m' j
  end.

(** The action at position [k] once the positions below [m] have been
    consolidated: its [nextId] names its partner when [k] is below [m] and
    has one, its [prevId] names the last position below [m] that chose it. *)
Definition linkedAt (live : list Action) (m k : nat) (a : Action) : Action :=
  mkAction (id a) (channelId a) (frame a) (event a)
    (match lastSelector live m k with
     | Some i => default 0 (id <$> live !! i)
     | None => prevId a
     end)
    (match (if decide (k < m)%nat then partner live k else None) with
     | Some j => default 0 (id <$> live !! j)
     | None => nextId a
     end).

(** The ids of the store and of the live buffer are allocated and pairwise
    distinct. *)
Definition store_ok (st : State) : Prop :=
  ids_allocated st ∧ NoDup (id <$> (m_actions st ++ m_liveActions st)).

(** Every non-zero link names a stored action that points back. *)
Definition links_consistent (l : list Action) : Prop :=
  Forall (λ x,
    (nextId x = 0 ∨ ∃ y, y ∈ l ∧ id y = nextId x ∧ prevId y = id x) ∧
    (prevId x = 0 ∨ ∃ y, y ∈ l ∧ id y = prevId x ∧ nextId y = id x)) l.


(** The two frames that [recordMidiAction] stores. *)
Definition noteFrames (size f1 f2 framesInLoop : Frame) : Frame * Frame :=
  let f2 := if decide (f2 = 0) then f1 + size else f2 in
  let overflow := f2 - framesInLoop in
  if decide (overflow > 0) then (f1 - overflow, f2 - overflow) else (f1, f2).

(** The three actions that the first envelope point of a channel brings to
    the store, when [base] is the last id allocated before: the boundary at
    frame 0, the point asked for, the boundary at the end of the loop. *)
Definition envelopeFirst (G : Z) (c : ID) (base : ID) : Action :=
  mkAction (base + 1) c 0 (makeFrom3Bytes CHANNEL_CC 0 G) (base + 3) (base + 2).
Definition envelopePoint (c : ID) (f : Frame) (value : Z) (base : ID) : Action :=
  mkAction (base + 2) c f (makeFrom3Bytes CHANNEL_CC 0 value) (base + 1) (base + 3).
Definition envelopeLast (G : Z) (c : ID) (lastFrameInLoop : Frame) (base : ID) : Action :=
  mkAction (base + 3) c lastFrameInLoop (makeFrom3Bytes CHANNEL_CC 0 G)
    (base + 2) (base + 1).

(** ** Sample states *)

(** The empty recorder. *)
Definition emptyState : State := mkState [] [] 0 ∅ [].

(** Channel 1 with the envelope [0 -> 500 -> 1000 -> 0] and, apart from it, a
    note pair on channel 3. *)
Definition envelopeState : State :=
  mkState
    [ mkAction 1 1 0 (makeFrom3Bytes CHANNEL_CC 0 127) 3 2;
      mkAction 2 1 500 (makeFrom3Bytes CHANNEL_CC 0 64) 1 3;
      mkAction 3 1 1000 (makeFrom3Bytes CHANNEL_CC 0 127) 2 1;
      mkAction 4 3 10 (makeFrom3Bytes CHANNEL_NOTE_ON 60 100) 0 5;
      mkAction 5 3 50 (makeFrom3Bytes CHANNEL_NOTE_OFF 60 100) 4 0 ]
    [] 5 (<[1 := true]> (<[3 := true]> ∅)) [].


(** ** Proof support *)

Ltac munfold :=
  unfold rec, rec_pair, updateSiblings, hasActions, getClosestAction,
    clearActions, deleteAction,
    Actions.rec, Actions.rec_pair, Actions.rec_batch, Actions.deleteAction,
    Actions.updateSiblings, Actions.hasActions, Actions.getClosestAction,
    Actions.clearActions, Model.setHasActions, Model.swap,
    actionFactory.getNewActionId, assert, deref, fail, modify, get,
    mbind, M_bind, mret, M_ret in *.

Lemma State_eta (st : State) :
  mkState (m_actions st) (m_liveActions st) (lastActionId st)
          (channelHasActions st) (swaps st) = st.
Proof. by destruct st. Qed.

(** ** [recordMidiAction] *)

(** What [recordMidiAction] stores.  It appends exactly two actions, a
    NOTE_ON and a NOTE_OFF with the given note and velocity, linked to each
    other by
    [nextId]/[prevId].  With [f2e] the note-off frame after the default (an
    [f2] of 0 stands for [f1 + G_DEFAULT_ACTION_SIZE]) and [overflow] the
    excess of [f2e] over the loop length when there is one (0 otherwise),
    the two frames are [f1 - overflow] and [f2e - overflow]: the distance
    between them is kept, the note-off never lies beyond the loop length and
    the note-on stays at or after frame 0 when the note is no longer than
    the loop.  The channel is flagged. *)
Theorem recordMidiAction_pair (size : Frame) (c : ID) (note velocity : Z)
    (f1 f2 framesInLoop : Frame) (st : State) :
  let f2e := if decide (f2 = 0) then f1 + size else f2 in
  let overflow := Z.max 0 (f2e - framesInLoop) in
  let i1 := lastActionId st + 1 in
  let i2 := lastActionId st + 2 in
  let aOn := mkAction i1 c (f1 - overflow)
               (makeFrom3Bytes CHANNEL_NOTE_ON note velocity) 0 i2 in
  let aOff := mkAction i2 c (f2e - overflow)
               (makeFrom3Bytes CHANNEL_NOTE_OFF note velocity) i1 0 in
  ∃ st',
    recordMidiAction size c note velocity f1 f2 framesInLoop st = Some (tt, st')
    ∧ m_actions st' = m_actions st ++ [aOn; aOff]
    ∧ id aOn ≠ id aOff
    ∧ nextId aOn = id aOff ∧ prevId aOff = id aOn
    ∧ frame aOff = Z.min f2e framesInLoop
    ∧ frame aOff - frame aOn = f2e - f1
    ∧ (0 <= f1 -> f2e - f1 <= framesInLoop -> 0 <= frame aOn)
    ∧ channelHasActions st' !! c = Some true
    ∧ m_liveActions st' = m_liveActions st.
Proof.
  intros f2e overflow i1 i2 aOn aOff.
  unfold recordMidiAction. fold f2e.
  assert (Hcase :
    (if decide (f2e - framesInLoop > 0)
     then (f1 - (f2e - framesInLoop), f2e - (f2e - framesInLoop))
     else (f1, f2e)) = (f1 - overflow, f2e - overflow)).
  { unfold overflow. case_decide; f_equal; lia. }
  rewrite Hcase. munfold. simpl.
  eexists. split; [reflexivity|]. simpl.
  replace (lastActionId st + 1 + 1) with i2 by (unfold i2; lia).
  repeat split.
  - unfold i1, i2. lia.
  - unfold overflow. lia.
  - lia.
  - unfold overflow. lia.
  - by rewrite lookup_insert_eq.
Qed.

(** A note longer than the loop: the shift by the overflow takes the note-on
    below frame 0. *)
Lemma recordMidiAction_long_note (size : Frame) (c : ID) (note velocity : Z)
    (f1 f2 framesInLoop : Frame) (st : State) :
  let f2e := if decide (f2 = 0) then f1 + size else f2 in
  0 <= f1 -> framesInLoop < f2e - f1 ->
  ∃ st' aOn aOff,
    recordMidiAction size c note velocity f1 f2 framesInLoop st = Some (tt, st')
    ∧ m_actions st' = m_actions st ++ [aOn; aOff]
    ∧ getStatus (event aOn) = CHANNEL_NOTE_ON
    ∧ frame aOn = f1 - (f2e - framesInLoop)
    ∧ frame aOn < 0
    ∧ frame aOff = framesInLoop.
Proof.
  intros f2e Hf1 Hlong.
  unfold recordMidiAction. fold f2e.
  rewrite decide_True by lia. munfold. simpl.
  eexists _, _, _. split; [reflexivity|]. simpl.
  split; [reflexivity|]. split; [reflexivity|]. split; [reflexivity|].
  unfold f2e in *. cbn [frame setNextId setPrevId makeAction]. split; lia.
Qed.

(** C8, at the failing input.  [recordMidiAction(1, 60, 100, f1 = 200,
    f2 = 0, framesInLoop = 1000)] with a default size of 8192 frames on an
    empty recorder: the note-off is due at 8392, the overflow is 7392, and
    the pair is stored at the frames -7192 and 1000.  The note-on lies
    before the start of the loop and the note-off at its length, where the
    frames of a loop of 1000 frames are 0 to 999: the pair is linked, but it
    is not inside the loop. *)
Theorem recordMidiAction_negative_frame :
  let aOn := mkAction 1 1 (-7192) (makeFrom3Bytes CHANNEL_NOTE_ON 60 100) 0 2 in
  let aOff := mkAction 2 1 1000 (makeFrom3Bytes CHANNEL_NOTE_OFF 60 100) 1 0 in
  recordMidiAction 8192 1 60 100 200 0 1000 emptyState
  = Some (tt, mkState [aOn; aOff] [] 2 (<[1 := true]> ∅) [])
  ∧ frame aOn < 0
  ∧ ¬ (0 <= frame aOn < 1000)
  ∧ ¬ (0 <= frame aOff < 1000)
  ∧ frame aOff - frame aOn = 8192.
Proof.
  intros aOn aOff.
  split; [vm_compute; reflexivity|].
  simpl. repeat split; lia.
Qed.

(** The example of the specification: [recordNote(ch, 60, 100, 10, 50, 1000)]
    on an empty recorder. *)
Example recordMidiAction_example (size : Frame) :
  (λ r, m_actions r.2) <$>
    recordMidiAction size 1 60 100 10 50 1000 (mkState [] [] 0 ∅ [])
  = Some [ mkAction 1 1 10 (makeFrom3Bytes CHANNEL_NOTE_ON 60 100) 0 2;
           mkAction 2 1 50 (makeFrom3Bytes CHANNEL_NOTE_OFF 60 100) 1 0 ].
Proof. reflexivity. Qed.

(** ** Rescaling: [updateSamplerate] and [updateBpm] *)

Lemma updateKeyFrames_Some (g : Frame -> option Frame) (st st' : State) :
  Actions.updateKeyFrames g st = Some (tt, st') ↔
  st' = setActions (m_actions st') st ∧ rescaled g (m_actions st) (m_actions st').
Proof.
  unfold Actions.updateKeyFrames, rescaled. split.
  - intros H. apply fmap_Some in H as (l & Hl & Heq).
    injection Heq as ->. simpl. split; [done|].
    apply mapM_Some_1 in Hl. eapply Forall2_impl; [exact Hl|].
    simpl. intros a a' Ha. apply fmap_Some in Ha as (z & Hz & ->). eauto.
  - intros [Hst Hres]. rewrite Hst.
    erewrite mapM_Some_2; [reflexivity|].
    eapply Forall2_impl; [exact Hres|].
    simpl. intros a a' (z & Hz & ->). by rewrite Hz.
Qed.

(** [F32.floor] is the floor of the value [±m·2^e] of a finite float with a
    fractional part. *)
Lemma F32_floor_spec (s : bool) (m : positive) (e z : Z) :
  e < 0 ->
  F32.floor (S754_finite s m e) = Some z ->
  z * 2 ^ (- e) <= cond_Zopp s (Z.pos m) < (z + 1) * 2 ^ (- e).
Proof.
  intros He H. unfold F32.floor in H. case_decide; [lia|].
  injection H as <-.
  assert (0 < 2 ^ (- e)) by (apply Z.pow_pos_nonneg; lia).
  pose proof (Z.mul_div_le (cond_Zopp s (Z.pos m)) (2 ^ (- e))).
  pose proof (Z.mul_succ_div_gt (cond_Zopp s (Z.pos m)) (2 ^ (- e))).
  lia.
Qed.

(** [F32.trunc] drops the fractional part of the magnitude [m·2^e] and keeps
    the sign. *)
Lemma F32_trunc_spec (s : bool) (m : positive) (e z : Z) :
  e < 0 ->
  F32.trunc (S754_finite s m e) = Some z ->
  ∃ n, z = cond_Zopp s n ∧ n * 2 ^ (- e) <= Z.pos m < (n + 1) * 2 ^ (- e).
Proof.
  intros He H. unfold F32.trunc in H. case_decide; [lia|].
  injection H as <-. eexists. split; [reflexivity|].
  assert (0 < 2 ^ (- e)) by (apply Z.pow_pos_nonneg; lia).
  pose proof (Z.mul_div_le (Z.pos m) (2 ^ (- e))).
  pose proof (Z.mul_succ_div_gt (Z.pos m) (2 ^ (- e))).
  lia.
Qed.

(** [F32.floor] computes the floor of the value of a float, and nothing
    else does. *)
Lemma F32_floor_floorOf (x : F32.float) (z : Z) :
  F32.floor x = Some z ↔ floorOf x z.
Proof.
  destruct x as [s| | |s m e]; simpl; [split; congruence|done|done|].
  destruct (decide (0 <= e)) as [He|He].
  - split; congruence.
  - assert (0 < 2 ^ (- e)) by (apply Z.pow_pos_nonneg; lia).
    split.
    + intros H0. apply (F32_floor_spec s m e z); [lia|].
      unfold F32.floor. by rewrite decide_False.
    + intros [Hlo Hhi]. f_equal. symmetry.
      apply (Z.div_unique _ _ z (cond_Zopp s (Z.pos m) - z * 2 ^ (- e))); lia.
Qed.

(** C9, as the code has it. [updateSamplerate] leaves the state as it is
    when the two rates are equal.  Otherwise, with [ratio] the
    single-precision quotient of the two rates converted to [float], it
    returns exactly when every stored action keeps its place and its fields
    except the frame [f], which becomes the floor [z] of the
    single-precision product of [f], converted to [float], by [ratio]: the
    greatest integer not above that product, which has to be finite and to
    fit an [int].  The product and the quotient are rounded, so [z] is not
    always the floor of the exact [f * systemRate / patchRate].  No collapse
    rule is applied. *)
Theorem updateSamplerate_rescales (systemRate patchRate : Z) (st st' : State) :
  updateSamplerate systemRate patchRate st = Some (tt, st') ↔
  if decide (systemRate = patchRate) then st' = st
  else
    let ratio := F32.div (F32.of_int systemRate) (F32.of_int patchRate) in
    st' = setActions (m_actions st') st ∧
    Forall2 (λ a a', ∃ z,
        a' = setFrame z a
        ∧ floorOf (F32.mul (F32.of_int (frame a)) ratio) z
        ∧ F32.int_min <= z <= F32.int_max)
      (m_actions st) (m_actions st').
Proof.
  unfold updateSamplerate. case_decide.
  - munfold. naive_solver.
  - cbn zeta. rewrite updateKeyFrames_Some.
    set (ratio := F32.div (F32.of_int systemRate) (F32.of_int patchRate)).
    assert (Hg : ∀ f z, updateSamplerate_frame ratio f = Some z ↔
              floorOf (F32.mul (F32.of_int f) ratio) z
              ∧ F32.int_min <= z <= F32.int_max).
    { intros f z. unfold updateSamplerate_frame, F32.floor_to_int.
      rewrite <- F32_floor_floorOf.
      destruct (F32.floor _) as [y|]; simpl.
      - unfold F32.in_int. case_decide.
        + split; [intros [= <-]; done|]. by intros [[= ->] _].
        + split; [done|]. intros [[= ->] ?]. done.
      - split; [done|]. by intros [? _]. }
    split; intros [Hst H1]; (split; [exact Hst|]);
      (eapply Forall2_impl; [exact H1|]); simpl; intros a a' (z & Hz).
    + destruct Hz as [Hz ->]. exists z. split; [done|]. by apply Hg.
    + destruct Hz as (-> & Hz). exists z. split; [|done]. by apply Hg.
Qed.

(** C9, as stated, fails: from a patch at 8000 Hz to a system at 44100 Hz an
    action at frame 720 moves to frame 3968, where the floor of the exact
    [720 * 44100 / 8000 = 3969] is 3969: the single-precision quotient lies
    below 5.5125 and so does its product by 720.  (The other way round, from
    44100 Hz to 48000 Hz frame 77729 moves to 84603, the exact floor being
    84602.) *)
Lemma updateSamplerate_exact_counterexample :
  let a := mkAction 1 1 720 (makeFrom3Bytes CHANNEL_NOTE_ON 60 100) 0 0 in
  updateSamplerate 44100 8000 (mkState [a] [] 1 ∅ [])
  = Some (tt, mkState [setFrame 3968 a] [] 1 ∅ [])
  ∧ spec_updateSamplerate_frame 44100 8000 720 = 3969
  ∧ ¬ rescaled (λ f, Some (spec_updateSamplerate_frame 44100 8000 f))
        [a] [setFrame 3968 a]
  ∧ updateSamplerate_frame (F32.div (F32.of_int 48000) (F32.of_int 44100)) 77729
    = Some 84603
  ∧ spec_updateSamplerate_frame 48000 44100 77729 = 84602.
Proof.
  intros a.
  split; [vm_compute; reflexivity|].
  split; [reflexivity|].
  split.
  { intros H. apply Forall2_cons_1 in H as [(z & Hz & Ha) _].
    injection Hz as <-. discriminate Ha. }
  split; [vm_compute; reflexivity|reflexivity].
Qed.

(** From 44100 Hz to 48000 Hz, frames 441 and 882 move to 480 and 960. *)
Example updateSamplerate_example :
  let a := mkAction 1 1 441 (makeFrom3Bytes CHANNEL_NOTE_ON 60 100) 0 2 in
  let b := mkAction 2 1 882 (makeFrom3Bytes CHANNEL_NOTE_OFF 60 100) 1 0 in
  updateSamplerate 48000 44100 (mkState [a; b] [] 2 ∅ [])
  = Some (tt, mkState [setFrame 480 a; setFrame 960 b] [] 2 ∅ []).
Proof. vm_compute. reflexivity. Qed.

Lemma rescaled_ext (g h : Frame -> option Frame) (old new : list Action) :
  (∀ f, g f = h f) -> rescaled g old new -> rescaled h old new.
Proof.
  intros Hgh H. eapply Forall2_impl; [exact H|].
  simpl. intros a a' (z & Hz & ->). exists z. by rewrite <- Hgh.
Qed.

(** C1, as the code has it. [updateBpm] leaves the state as it is when the
    ratio is 1.0.  Otherwise it returns exactly when every rescaled frame is
    defined, and then every stored action keeps its place and its fields
    except the frame [f]: with [f'] the single-precision product [f * ratio]
    cut toward zero, the new frame is [f' + d] when [f'] is not 0 and the
    remainder [d] of [quantizerStep] by [f'] lies in (0, 6], and [f']
    otherwise. *)
Theorem updateBpm_rescales (ratio : F32.float) (quantizerStep : Z) (st st' : State) :
  updateBpm ratio quantizerStep st = Some (tt, st') ↔
  if F32.eqb ratio F32.one then st' = st
  else
    st' = setActions (m_actions st') st ∧
    rescaled (λ f,
        f' ← F32.trunc (F32.mul (F32.of_int f) ratio) ≫= F32.in_int;
        let d := Z.rem quantizerStep f' in
        Some (if decide (f' ≠ 0 ∧ 0 < d ∧ d <= 6) then f' + d else f'))
      (m_actions st) (m_actions st').
Proof.
  unfold updateBpm. destruct (F32.eqb ratio F32.one).
  - munfold. naive_solver.
  - rewrite updateKeyFrames_Some.
    assert (Hext : ∀ f, updateBpm_frame ratio quantizerStep f =
      (F32.trunc (F32.mul (F32.of_int f) ratio) ≫= F32.in_int) ≫= λ f',
        let d := Z.rem quantizerStep f' in
        Some (if decide (f' ≠ 0 ∧ 0 < d ∧ d <= 6) then f' + d else f')).
    { intros f. unfold updateBpm_frame, F32.to_int.
      destruct (F32.trunc _ ≫= F32.in_int) as [f'|]; simpl; [|done].
      repeat case_decide; try done; lia. }
    split; intros [? ?]; (split; [done|]).
    + eapply rescaled_ext; [exact Hext|done].
    + eapply rescaled_ext; [|eassumption]. intros f. by rewrite Hext.
Qed.

(** C1, as stated, fails: at a ratio of 0.25 (the tempo going from 30 to 120
    bpm) an action at frame 7 moves to frame 1, the product 1.75 cut toward
    zero, where the statement puts it at [round(1.75) = 2]; 44100 is a
    multiple of both, so the collapse rule plays no part. *)
Lemma updateBpm_round_counterexample :
  let a := mkAction 1 1 7 (makeFrom3Bytes CHANNEL_NOTE_ON 60 100) 0 0 in
  let quarter := F32.div (F32.of_int 1) (F32.of_int 4) in
  F32.eqb quarter F32.one = false
  ∧ updateBpm quarter 44100 (mkState [a] [] 1 ∅ [])
    = Some (tt, mkState [setFrame 1 a] [] 1 ∅ [])
  ∧ spec_updateBpm_frame quarter 44100 7 = Some 2
  ∧ ¬ rescaled (spec_updateBpm_frame quarter 44100) [a] [setFrame 1 a].
Proof.
  intros a quarter.
  assert (Hspec : spec_updateBpm_frame quarter 44100 7 = Some 2)
    by (vm_compute; reflexivity).
  split; [vm_compute; reflexivity|].
  split; [vm_compute; reflexivity|].
  split; [exact Hspec|].
  intros H. apply Forall2_cons_1 in H as [(z & Hz & Ha) _].
  change (frame a) with 7 in Hz. rewrite Hspec in Hz. injection Hz as <-.
  discriminate Ha.
Qed.

(** A frame rescaled to 0 stays at 0: the collapse rule is not applied to
    it. *)
Example updateBpm_frame_zero :
  updateBpm_frame (F32.div (F32.of_int 1) (F32.of_int 4)) 5 3 = Some 0.
Proof. vm_compute. reflexivity. Qed.

(** ** [cloneActions] *)

Lemma setLastActionId_same (st : State) :
  setLastActionId (lastActionId st + Z.of_nat 0) st = st.
Proof. destruct st. unfold setLastActionId. simpl. f_equal. lia. Qed.

Lemma list_find_id_lookup (l : list Action) (j : nat) (a : Action) :
  NoDup (id <$> l) -> l !! j = Some a ->
  list_find (λ x, id x = id a) l = Some (j, a).
Proof.
  intros Hnd Hj. apply list_find_Some. split; [done|]. split; [done|].
  intros j' y Hj' Hlt Heq.
  assert (j' = j); [|lia].
  eapply (NoDup_lookup _ _ _ (id a) Hnd); rewrite list_lookup_fmap.
  - by rewrite Hj', <- Heq.
  - by rewrite Hj.
Qed.

Lemma onChannel_NoDup (c : ID) (l : list Action) :
  NoDup (id <$> l) -> NoDup (id <$> onChannel c l).
Proof.
  intros H. eapply sublist_NoDup; [exact H|].
  apply fmap_sublist, sublist_filter.
Qed.

(** The first loop: one clone per source action, in order, with consecutive
    new ids; the map sends a source id to the id of the clone of the first
    source action that carries it. *)
Lemma cloneActions_visit_spec (src dst : ID) (l : list Action) :
  ∀ (cl : bool) (acts : list Action) (map : gmap Z Z) (st : State),
  ∃ map',
    cloneActions_visit src dst l (cl, acts, map) st
    = Some ((cl || bool_decide (onChannel src l ≠ []),
             acts ++ imap (λ j a, setChannelId dst
                              (setId (lastActionId st + 1 + Z.of_nat j) a))
                          (onChannel src l),
             map'),
            setLastActionId (lastActionId st + Z.of_nat (length (onChannel src l))) st)
    ∧ ∀ i, map' !! i = match map !! i with
                       | Some v => Some v
                       | None => cloneIdOf (lastActionId st) (onChannel src l) i
                       end.
Proof.
  induction l as [|a l IH]; intros cl acts map st.
  - exists map. split.
    + simpl. rewrite setLastActionId_same, orb_false_r, app_nil_r. done.
    + intros i. by destruct (map !! i).
  - simpl. case_decide as Hc.
    + unfold onChannel. rewrite filter_cons_False by done. apply IH.
    + assert (Ha : channelId a = src) by (by destruct (decide (channelId a = src))).
      unfold onChannel. rewrite filter_cons_True by done. fold (onChannel src l).
      munfold. simpl.
      destruct (IH true (acts ++ [setChannelId dst (setId (lastActionId st + 1) a)])
                  (map_insert_new (id a) (lastActionId st + 1) map)
                  (setLastActionId (lastActionId st + 1) st)) as (map' & Heq & Hmap).
      exists map'. split.
      * rewrite Heq. simpl. rewrite orb_true_r, <- app_assoc. simpl.
        replace (lastActionId st + 1 + Z.of_nat 0) with (lastActionId st + 1) by lia.
        rewrite (imap_ext
          (λ j a0, setChannelId dst (setId (lastActionId st + 1 + 1 + Z.of_nat j) a0))
          ((λ j a0, setChannelId dst (setId (lastActionId st + 1 + Z.of_nat j) a0)) ∘ S)).
        2:{ intros j x _. simpl. do 2 f_equal. lia. }
        do 2 f_equal. unfold setLastActionId. simpl. f_equal. lia.
      * intros i. rewrite Hmap. unfold map_insert_new, cloneIdOf. simpl.
        destruct (map !! id a) as [v|] eqn:Hida.
        -- destruct (decide (id a = i)) as [<-|Hd]; [by rewrite Hida|].
           destruct (map !! i) as [w|] eqn:Hi; [done|].
           destruct (list_find _ (onChannel src l)) as [[j x]|]; simpl; [|done].
           f_equal. lia.
        -- destruct (decide (id a = i)) as [<-|Hne].
           ++ rewrite lookup_insert_eq, Hida. simpl. f_equal. lia.
           ++ rewrite lookup_insert_ne by done.
              destruct (map !! i) as [w|]; [done|].
              destruct (list_find _ (onChannel src l)) as [[j x]|]; simpl; [|done].
              f_equal. lia.
Qed.

Lemma cloneIdOf_lookup (base : ID) (srcs : list Action) (j : nat) (a : Action) :
  NoDup (id <$> srcs) -> srcs !! j = Some a ->
  cloneIdOf base srcs (id a) = Some (base + 1 + Z.of_nat j).
Proof.
  intros Hnd Hj. unfold cloneIdOf.
  by rewrite (list_find_id_lookup _ _ _ Hnd Hj).
Qed.

Lemma cloneIdOf_elem (base : ID) (srcs : list Action) (i : ID) :
  i ∈ id <$> srcs -> is_Some (cloneIdOf base srcs i).
Proof.
  intros (b & -> & Hb)%list_elem_of_fmap. unfold cloneIdOf.
  destruct (list_find_elem_of (λ x, id x = id b) srcs b Hb eq_refl) as [r ->].
  by eexists.
Qed.

(** The second loop succeeds on a closed source and yields the renamed
    copies. *)
Lemma cloneActions_relink_spec (base dst : ID) (srcs : list Action) (map : gmap Z Z) :
  (∀ i, map !! i = cloneIdOf base srcs i) ->
  NoDup (id <$> srcs) -> links_closed srcs ->
  mapM (cloneActions_relink map)
    (imap (λ j a, setChannelId dst (setId (base + 1 + Z.of_nat j) a)) srcs)
  = Some (cloneOf (λ i, default 0 (cloneIdOf base srcs i)) dst <$> srcs).
Proof.
  intros Hmap Hnd Hclosed. apply mapM_Some_2, Forall2_same_length_lookup_2.
  { by rewrite length_imap, length_fmap. }
  intros j x y Hx Hy.
  rewrite list_lookup_imap in Hx. rewrite list_lookup_fmap in Hy.
  destruct (srcs !! j) as [a|] eqn:Hj; [|done].
  simpl in Hx, Hy. injection Hx as <-. injection Hy as <-.
  unfold links_closed in Hclosed. rewrite Forall_forall in Hclosed.
  destruct (Hclosed a (list_elem_of_lookup_2 _ _ _ Hj)) as [Hp Hn].
  unfold cloneActions_relink, cloneOf. simpl.
  rewrite (cloneIdOf_lookup base srcs j a Hnd Hj). simpl.
  destruct (decide (prevId a = 0)) as [Hp0|Hp0].
  - rewrite decide_False by tauto. simpl.
    destruct (decide (nextId a = 0)) as [Hn0|Hn0].
    + rewrite decide_False by tauto. unfold setChannelId, setId. simpl.
      by rewrite Hp0, Hn0.
    + rewrite decide_True by done. destruct Hn as [?|Hn]; [done|].
      rewrite Hmap. destruct (cloneIdOf_elem base _ _ Hn) as [v ->]. simpl.
      unfold setNextId, setChannelId, setId. simpl. by rewrite Hp0.
  - rewrite decide_True by done. destruct Hp as [?|Hp]; [done|].
    rewrite Hmap. destruct (cloneIdOf_elem base _ _ Hp) as [v ->]. simpl.
    destruct (decide (nextId a = 0)) as [Hn0|Hn0].
    + rewrite decide_False by tauto. unfold setPrevId, setChannelId, setId. simpl.
      by rewrite Hn0.
    + rewrite decide_True by done. destruct Hn as [?|Hn]; [done|].
      rewrite Hmap. destruct (cloneIdOf_elem base _ _ Hn) as [w ->]. done.
Qed.

Lemma onChannel_cloneOf (σ : ID -> ID) (src dst : ID) (l : list Action) :
  src ≠ dst -> onChannel src (cloneOf σ dst <$> l) = [].
Proof.
  intros Hne. induction l as [|a l IH]; [done|].
  simpl. unfold onChannel. rewrite filter_cons_False; [exact IH|].
  simpl. congruence.
Qed.

(** What [cloneActions] computes on a source whose links stay on the source
    channel. *)
Lemma cloneActions_run (src dst : ID) (st : State) :
  NoDup (id <$> onChannel src (m_actions st)) ->
  links_closed (onChannel src (m_actions st)) ->
  let srcs := onChannel src (m_actions st) in
  let σ := λ i, default 0 (cloneIdOf (lastActionId st) srcs i) in
  cloneActions src dst st
  = Some (bool_decide (srcs ≠ []),
          mkState (m_actions st ++ (cloneOf σ dst <$> srcs))
                  (m_liveActions st)
                  (lastActionId st + Z.of_nat (length srcs))
                  (<[dst := true]> (channelHasActions st))
                  (swaps st ++ [HARD])).
Proof.
  intros Hnd Hclosed srcs σ.
  destruct (cloneActions_visit_spec src dst (m_actions st) false [] ∅ st)
    as (map & Heq & Hmap).
  unfold cloneActions. munfold. rewrite Heq. simpl.
  fold srcs. rewrite (cloneActions_relink_spec (lastActionId st) dst srcs map).
  - reflexivity.
  - intros i. rewrite Hmap. by rewrite lookup_empty.
  - exact Hnd.
  - exact Hclosed.
Qed.

(** C3. On a store with unique, allocated ids, where the links of the source
    channel stay on the source channel, [cloneActions src dst] returns, and
    returns [true] exactly when the source channel has an action.  It appends
    to the store one copy per source action, in order: the image of the
    action under a renaming [σ] of ids, on channel [dst], with the same frame
    and event and with its non-zero links renamed (the links of the clones
    mirror those of the sources).  [σ] is one-to-one on the source, and the
    new ids are non-zero and differ from every id of the store and of the
    live buffer.  Nothing stored before is changed: the store is extended,
    and the source channel holds what it held when [dst] is another
    channel. *)
Theorem cloneActions_isomorphic (src dst : ID) (st : State) :
  ids_unique st -> ids_allocated st ->
  links_closed (onChannel src (m_actions st)) ->
  let srcs := onChannel src (m_actions st) in
  ∃ (σ : ID -> ID) (st' : State),
    cloneActions src dst st = Some (bool_decide (srcs ≠ []), st')
    ∧ m_actions st' = m_actions st ++ (cloneOf σ dst <$> srcs)
    ∧ (∀ a b, a ∈ srcs -> b ∈ srcs -> σ (id a) = σ (id b) -> a = b)
    ∧ (∀ a b, a ∈ srcs -> b ∈ m_actions st ++ m_liveActions st -> σ (id a) ≠ id b)
    ∧ (∀ a, a ∈ srcs -> σ (id a) ≠ 0)
    ∧ (src ≠ dst -> onChannel src (m_actions st') = srcs).
Proof.
  intros Huniq Halloc Hclosed srcs.
  assert (Hnd : NoDup (id <$> srcs)) by (by apply onChannel_NoDup).
  set (σ := λ i : Z, default 0 (cloneIdOf (lastActionId st) srcs i)).
  exists σ. eexists. split; [by apply cloneActions_run|]. simpl.
  assert (Hσ : ∀ a, a ∈ srcs -> ∃ j : nat, srcs !! j = Some a ∧
            σ (id a) = lastActionId st + 1 + Z.of_nat j).
  { intros a (j & Hj)%list_elem_of_lookup_1. exists j. split; [done|].
    unfold σ. by rewrite (cloneIdOf_lookup _ _ _ _ Hnd Hj). }
  split; [done|]. split; [|split; [|split]].
  - intros a b Ha Hb Heq.
    destruct (Hσ a Ha) as (ja & Hja & Ea). destruct (Hσ b Hb) as (jb & Hjb & Eb).
    rewrite Ea, Eb in Heq. assert (ja = jb) by lia. subst jb. congruence.
  - intros a b Ha Hb. destruct (Hσ a Ha) as (ja & Hja & ->).
    destruct Halloc as [_ Halloc]. rewrite Forall_forall in Halloc.
    specialize (Halloc b Hb). lia.
  - intros a Ha. destruct (Hσ a Ha) as (ja & Hja & ->).
    destruct Halloc as [Hlast _]. lia.
  - intros Hne. pose proof (onChannel_cloneOf σ src dst srcs Hne) as Hnil.
    clear Hσ. subst σ srcs. unfold onChannel in *.
    rewrite filter_app, Hnil. by rewrite app_nil_r.
Qed.

Lemma cloneActions_isomorphic_witness :
  ids_unique envelopeState ∧ ids_allocated envelopeState ∧
  links_closed (onChannel 1 (m_actions envelopeState)) ∧
  ∃ (σ : ID -> ID) (st' : State),
    cloneActions 1 2 envelopeState = Some (true, st')
    ∧ m_actions st'
      = m_actions envelopeState ++
        (cloneOf σ 2 <$> onChannel 1 (m_actions envelopeState))
    ∧ (∀ a b, a ∈ onChannel 1 (m_actions envelopeState) ->
              b ∈ onChannel 1 (m_actions envelopeState) ->
              σ (id a) = σ (id b) -> a = b)
    ∧ (∀ a b, a ∈ onChannel 1 (m_actions envelopeState) ->
              b ∈ m_actions envelopeState ++ m_liveActions envelopeState ->
              σ (id a) ≠ id b)
    ∧ (∀ a, a ∈ onChannel 1 (m_actions envelopeState) -> σ (id a) ≠ 0)
    ∧ (1 ≠ 2 -> onChannel 1 (m_actions st') = onChannel 1 (m_actions envelopeState)).
Proof.
  assert (H1 : ids_unique envelopeState).
  { unfold ids_unique. apply (bool_decide_unpack _). vm_compute. exact I. }
  assert (H2 : ids_allocated envelopeState).
  { unfold ids_allocated. apply (bool_decide_unpack _). vm_compute. exact I. }
  assert (H3 : links_closed (onChannel 1 (m_actions envelopeState))).
  { unfold links_closed. apply (bool_decide_unpack _). vm_compute. exact I. }
  split; [exact H1|]. split; [exact H2|]. split; [exact H3|].
  exact (cloneActions_isomorphic 1 2 envelopeState H1 H2 H3).
Defined.

(** The clones of the sample envelope: ids 6, 7, 8 with the links of 1, 2, 3. *)
Example cloneActions_example :
  (λ r, (r.1, drop 5 (m_actions r.2))) <$> cloneActions 1 2 envelopeState
  = Some (true,
          [ mkAction 6 2 0 (makeFrom3Bytes CHANNEL_CC 0 127) 8 7;
            mkAction 7 2 500 (makeFrom3Bytes CHANNEL_CC 0 64) 6 8;
            mkAction 8 2 1000 (makeFrom3Bytes CHANNEL_CC 0 127) 7 6 ]).
Proof. vm_compute. reflexivity. Qed.

(** C10. Whenever [cloneActions src dst] returns, the destination channel is
    flagged [hasActions = true] and one structural swap has been requested,
    whatever the result.  In particular, on a source channel without actions
    the call returns [false], stores nothing, and still flags the
    destination: a destination that held no action is then flagged while
    holding none. *)
Theorem cloneActions_flags_destination (src dst : ID) (st : State) :
  (∀ r st', cloneActions src dst st = Some (r, st') ->
     channelHasActions st' !! dst = Some true ∧ swaps st' = swaps st ++ [HARD])
  ∧ (onChannel src (m_actions st) = [] ->
     ∃ st', cloneActions src dst st = Some (false, st')
       ∧ m_actions st' = m_actions st
       ∧ channelHasActions st' !! dst = Some true
       ∧ swaps st' = swaps st ++ [HARD]
       ∧ (onChannel dst (m_actions st) = [] -> onChannel dst (m_actions st') = [])).
Proof.
  split.
  - intros r st' H.
    destruct (cloneActions_visit_spec src dst (m_actions st) false [] ∅ st)
      as (map & Heq & _).
    unfold cloneActions in H. munfold. rewrite Heq in H. simpl in H.
    destruct (mapM _ _) as [acts|]; [|done]. simpl in H.
    injection H as <- <-. simpl. by rewrite lookup_insert_eq.
  - intros Hempty.
    assert (Hrun := cloneActions_run src dst st).
    rewrite Hempty in Hrun. simpl in Hrun.
    eexists. split; [apply Hrun; [constructor|constructor]|]. simpl.
    rewrite app_nil_r, lookup_insert_eq. done.
Qed.

Lemma cloneActions_flags_destination_witness :
  onChannel 1 (m_actions emptyState) = [] ∧
  ∃ st', cloneActions 1 2 emptyState = Some (false, st')
    ∧ m_actions st' = []
    ∧ channelHasActions st' !! 2 = Some true
    ∧ swaps st' = [HARD]
    ∧ (onChannel 2 (m_actions emptyState) = [] -> onChannel 2 (m_actions st') = []).
Proof.
  split; [reflexivity|].
  exact (proj2 (cloneActions_flags_destination 1 2 emptyState) eq_refl).
Defined.

(** ** Envelopes: the first point *)

Lemma alterById_fresh (i : ID) (g : Action -> Action) (l : list Action) :
  Forall (λ a, id a ≠ i) l -> Actions.alterById i g l = l.
Proof.
  intros H. unfold Actions.alterById. induction H as [|a l Ha _ IH]; [done|].
  csimpl. rewrite IH. by rewrite decide_False.
Qed.

Lemma alterById_app (i : ID) (g : Action -> Action) (l1 l2 : list Action) :
  Actions.alterById i g (l1 ++ l2)
  = Actions.alterById i g l1 ++ Actions.alterById i g l2.
Proof. unfold Actions.alterById. apply fmap_app. Qed.

Lemma hasActions_envelope (c : ID) (l : list Action) :
  bool_decide (Exists (Actions.ofChannelAndType c (Some CHANNEL_CC)) l)
  = bool_decide (envelopeOf c l ≠ []).
Proof.
  apply bool_decide_ext. unfold envelopeOf. rewrite Exists_exists. split.
  - intros (x & Hx & HP) Hnil.
    assert (x ∈ filter (λ a, channelId a = c ∧ getStatus (event a) = CHANNEL_CC) l)
      as Hin by (by apply list_elem_of_filter).
    rewrite Hnil in Hin. by apply not_elem_of_nil in Hin.
  - intros Hne. destruct (filter _ l) as [|x k] eqn:Hf; [done|].
    assert (x ∈ filter (λ a, channelId a = c ∧ getStatus (event a) = CHANNEL_CC) l)
      as Hin by (rewrite Hf; left).
    apply list_elem_of_filter in Hin as [HP Hx]. by exists x.
Qed.

Lemma bind_Some {A B : Type} (m : M A) (k : A -> M B) (st st' : State) (x : A) :
  m st = Some (x, st') -> (m ≫= k) st = k x st'.
Proof. intros H. unfold mbind, M_bind. by rewrite H. Qed.

Lemma rec_run (c : ID) (f : Frame) (e : MidiEvent) (st : State) :
  rec c f e st
  = Some (makeAction (lastActionId st + 1) c f e,
          mkState (m_actions st ++ [makeAction (lastActionId st + 1) c f e])
                  (m_liveActions st) (lastActionId st + 1)
                  (<[c := true]> (channelHasActions st)) (swaps st)).
Proof. reflexivity. Qed.

Lemma updateSiblings_run (i p n : ID) (st : State) :
  updateSiblings i p n st
  = Some (tt, mkState
      (Actions.alterById n (setPrevId i)
        (Actions.alterById p (setNextId i)
          (Actions.alterById i (λ a, setNextId n (setPrevId p a)) (m_actions st))))
      (m_liveActions st) (lastActionId st) (channelHasActions st) (swaps st)).
Proof. reflexivity. Qed.

Ltac proj_simpl :=
  cbn [m_actions m_liveActions lastActionId channelHasActions swaps
       id channelId frame event prevId nextId makeAction
       setId setChannelId setFrame setPrevId setNextId].

Lemma alterById_nil (i : ID) (g : Action -> Action) : Actions.alterById i g [] = [].
Proof. reflexivity. Qed.

Lemma alterById_hit (i : ID) (g : Action -> Action) (a : Action) (l : list Action) :
  id a = i -> Actions.alterById i g (a :: l) = g a :: Actions.alterById i g l.
Proof. intros H. unfold Actions.alterById. csimpl. by rewrite decide_True. Qed.

Lemma alterById_miss (i : ID) (g : Action -> Action) (a : Action) (l : list Action) :
  id a ≠ i -> Actions.alterById i g (a :: l) = a :: Actions.alterById i g l.
Proof. intros H. unfold Actions.alterById. csimpl. by rewrite decide_False. Qed.

Ltac alter_step :=
  match goal with
  | |- context [Actions.alterById ?i ?g (?x :: ?l)] =>
      first [ rewrite (alterById_hit i g x l) by (proj_simpl; lia)
            | rewrite (alterById_miss i g x l) by (proj_simpl; lia) ]
  | |- context [Actions.alterById ?i ?g []] => rewrite (alterById_nil i g)
  end.

(** What [recordFirstEnvelopeAction] computes when the ids of the store have
    been allocated. *)
Lemma recordFirstEnvelopeAction_run (G : Z) (c : ID) (f : Frame) (value : Z)
    (lastFrameInLoop : Frame) (st : State) :
  Forall (λ a, id a <= lastActionId st) (m_actions st) ->
  let i1 := lastActionId st + 1 in
  let i2 := lastActionId st + 2 in
  let i3 := lastActionId st + 3 in
  let e1 := makeFrom3Bytes CHANNEL_CC 0 G in
  let e2 := makeFrom3Bytes CHANNEL_CC 0 value in
  recordFirstEnvelopeAction G c f value lastFrameInLoop st
  = Some (tt, mkState
      (m_actions st ++ [ mkAction i1 c 0 e1 i3 i2;
                         mkAction i2 c f e2 i1 i3;
                         mkAction i3 c lastFrameInLoop e1 i2 i1 ])
      (m_liveActions st) i3 (<[c := true]> (channelHasActions st)) (swaps st)).
Proof.
  intros Hfresh i1 i2 i3 e1 e2.
  unfold recordFirstEnvelopeAction.
  erewrite bind_Some by apply rec_run.
  erewrite bind_Some by apply rec_run.
  erewrite bind_Some by apply rec_run.
  erewrite bind_Some by apply updateSiblings_run.
  erewrite bind_Some by apply updateSiblings_run.
  rewrite updateSiblings_run. proj_simpl.
  rewrite !insert_insert_eq.
  replace (lastActionId st + 1 + 1) with i2 by (unfold i2; lia).
  replace (i2 + 1) with i3 by (unfold i2, i3; lia).
  fold i1 e1 e2.
  do 3 f_equal.
  rewrite <- !app_assoc. cbn [app].
  assert (Hl : ∀ i g, lastActionId st < i ->
            Actions.alterById i g (m_actions st) = m_actions st).
  { intros i g Hi. apply alterById_fresh. eapply Forall_impl; [exact Hfresh|].
    simpl. intros a Ha. lia. }
  assert (lastActionId st < i1 < i2 ∧ i2 < i3) as Hlt
    by (unfold i1, i2, i3; lia).
  clearbody i1 i2 i3.
  rewrite !alterById_app, !Hl by lia.
  f_equal.
  repeat (alter_step; proj_simpl).
  reflexivity.
Qed.

Lemma findAction_cons (a : Action) (l : list Action) (i : ID) :
  Actions.findAction (a :: l) i
  = if decide (id a = i) then Some a else Actions.findAction l i.
Proof.
  unfold Actions.findAction. csimpl. case_decide; [done|].
  by destruct (list_find _ l) as [[? ?]|].
Qed.

Lemma findAction_app_fresh (l k : list Action) (i : ID) :
  Forall (λ a, id a ≠ i) l ->
  Actions.findAction (l ++ k) i = Actions.findAction k i.
Proof.
  induction 1 as [|a l Ha _ IH]; [done|].
  simpl. rewrite findAction_cons. by rewrite decide_False.
Qed.

Lemma findAction_Some (l : list Action) (i : ID) (a : Action) :
  Actions.findAction l i = Some a -> a ∈ l ∧ id a = i.
Proof.
  unfold Actions.findAction. intros H.
  apply fmap_Some in H as ([j x] & Hfind & ->). simpl.
  apply list_find_Some in Hfind as (Hj & Hid & _).
  split; [by eapply list_elem_of_lookup_2|done].
Qed.

Lemma nextOf_Some_inv (l : list Action) (x y : Action) :
  Actions.nextOf l x = Some y -> y ∈ l ∧ id y = nextId x ∧ nextId x ≠ 0.
Proof.
  unfold Actions.nextOf. case_decide; [done|].
  intros [? ?]%findAction_Some. done.
Qed.

Lemma prevOf_Some_inv (l : list Action) (x y : Action) :
  Actions.prevOf l x = Some y -> y ∈ l ∧ id y = prevId x ∧ prevId x ≠ 0.
Proof.
  unfold Actions.prevOf. case_decide; [done|].
  intros [? ?]%findAction_Some. done.
Qed.

Lemma findAction_unique (l : list Action) (a : Action) :
  NoDup (id <$> l) -> a ∈ l -> Actions.findAction l (id a) = Some a.
Proof.
  intros Hnd (j & Hj)%list_elem_of_lookup_1. unfold Actions.findAction.
  by rewrite (list_find_id_lookup l j a Hnd Hj).
Qed.

Lemma hasActions_run (c : ID) (ty : option Status) (st : State) :
  hasActions c ty st
  = Some (bool_decide (Exists (Actions.ofChannelAndType c ty) (m_actions st)), st).
Proof. reflexivity. Qed.

Lemma ids_allocated_le (st : State) :
  ids_allocated st -> Forall (λ a, id a <= lastActionId st) (m_actions st).
Proof.
  intros [_ H]. apply Forall_app in H as [H _].
  eapply Forall_impl; [exact H|]. simpl. intros a Ha. lia.
Qed.

Ltac find_step :=
  match goal with
  | |- context [Actions.findAction (?x :: ?l) ?i] =>
      rewrite (findAction_cons x l i);
      first [ rewrite decide_True by (proj_simpl; lia)
            | rewrite decide_False by (proj_simpl; lia) ]
  end.

(** C4. On a channel without envelope actions, [recordEnvelopeAction] appends
    exactly three actions to the store: one at frame 0 and one at
    [lastFrameInLoop], both with the value [G_MAX_VELOCITY], and between them
    the one at the requested frame with the requested value; their links
    form a cycle, first -> requested -> last -> first, with the [prevId]s
    the same cycle backwards. *)
Theorem recordEnvelopeAction_first (G : Z) (c : ID) (f : Frame) (value : Z)
    (lastFrameInLoop : Frame) (st : State) :
  ids_allocated st ->
  0 <= value <= G ->
  envelopeOf c (m_actions st) = [] ->
  let i1 := lastActionId st + 1 in
  let i2 := lastActionId st + 2 in
  let i3 := lastActionId st + 3 in
  let first := mkAction i1 c 0 (makeFrom3Bytes CHANNEL_CC 0 G) i3 i2 in
  let point := mkAction i2 c f (makeFrom3Bytes CHANNEL_CC 0 value) i1 i3 in
  let last := mkAction i3 c lastFrameInLoop (makeFrom3Bytes CHANNEL_CC 0 G) i2 i1 in
  ∃ st',
    recordEnvelopeAction G c f value lastFrameInLoop st = Some (tt, st')
    ∧ m_actions st' = m_actions st ++ [first; point; last]
    ∧ envelopeOf c (m_actions st') = [first; point; last]
    ∧ Actions.nextOf (m_actions st') first = Some point
    ∧ Actions.nextOf (m_actions st') point = Some last
    ∧ Actions.nextOf (m_actions st') last = Some first
    ∧ Actions.prevOf (m_actions st') first = Some last
    ∧ Actions.prevOf (m_actions st') point = Some first
    ∧ Actions.prevOf (m_actions st') last = Some point.
Proof.
  intros Halloc Hvalue Henv i1 i2 i3 first point last.
  pose proof (ids_allocated_le st Halloc) as Hle.
  destruct Halloc as [Hlast _].
  unfold recordEnvelopeAction.
  rewrite bool_decide_eq_true_2 by lia.
  erewrite bind_Some by reflexivity.
  erewrite bind_Some by apply hasActions_run.
  rewrite hasActions_envelope, Henv, bool_decide_eq_false_2 by (intros H; by apply H).
  cbn [negb]. rewrite recordFirstEnvelopeAction_run by done.
  fold i1 i2 i3 first point last.
  eexists. split; [reflexivity|]. proj_simpl. split; [done|].
  assert (lastActionId st < i1 < i2 ∧ i2 < i3) as Hlt by (unfold i1, i2, i3; lia).
  assert (Hfind : ∀ i, lastActionId st < i ->
            Actions.findAction (m_actions st ++ [first; point; last]) i
            = Actions.findAction [first; point; last] i).
  { intros i Hi. apply findAction_app_fresh.
    eapply Forall_impl; [exact Hle|]. simpl. intros a Ha. lia. }
  clearbody i1 i2 i3.
  split.
  { unfold envelopeOf in *. rewrite filter_app, Henv. simpl.
    rewrite !filter_cons_True by done. done. }
  unfold Actions.nextOf, Actions.prevOf. subst first point last. proj_simpl.
  rewrite !decide_False by lia. rewrite !Hfind by lia.
  repeat split; repeat find_step; reflexivity.
Qed.

Lemma recordEnvelopeAction_first_witness :
  ids_allocated emptyState ∧ 0 <= 64 <= 127 ∧
  envelopeOf 1 (m_actions emptyState) = [] ∧
  ∃ st',
    recordEnvelopeAction 127 1 500 64 1000 emptyState = Some (tt, st')
    ∧ m_actions st'
      = [ mkAction 1 1 0 (makeFrom3Bytes CHANNEL_CC 0 127) 3 2;
          mkAction 2 1 500 (makeFrom3Bytes CHANNEL_CC 0 64) 1 3;
          mkAction 3 1 1000 (makeFrom3Bytes CHANNEL_CC 0 127) 2 1 ].
Proof.
  assert (H1 : ids_allocated emptyState) by (split; [done|constructor]).
  assert (H2 : 0 <= 64 <= 127) by lia.
  split; [exact H1|]. split; [exact H2|]. split; [reflexivity|].
  destruct (recordEnvelopeAction_first 127 1 500 64 1000 emptyState H1 H2 eq_refl)
    as (st' & Hrun & Hact & _).
  exists st'. split; [exact Hrun|exact Hact].
Defined.

(** C7, at the failing input. The first envelope point of a channel, asked
    for at frame 0, is stored next to the boundary action of frame 0: two
    envelope actions of channel 1, controller 0, share a frame. *)
Lemma recordEnvelopeAction_vertical_points :
  ∃ st' a b,
    recordEnvelopeAction 127 1 0 64 1000 emptyState = Some (tt, st')
    ∧ a ∈ envelopePoints 1 0 (m_actions st')
    ∧ b ∈ envelopePoints 1 0 (m_actions st')
    ∧ id a ≠ id b
    ∧ frame a = frame b
    ∧ ¬ no_vertical_points (m_actions st').
Proof.
  eexists _, (mkAction 1 1 0 (makeFrom3Bytes CHANNEL_CC 0 127) 3 2),
             (mkAction 2 1 0 (makeFrom3Bytes CHANNEL_CC 0 64) 1 3).
  split; [vm_compute; reflexivity|].
  split; [compute_done|]. split; [compute_done|].
  split; [done|]. split; [done|].
  intros H. specialize (H 1 0).
  apply (bool_decide_pack _) in H. vm_compute in H. exact H.
Qed.

(** The same holds for every baseline value, value and loop length. *)
Lemma firstEnvelopePoint_at_zero (G value lastFrameInLoop : Z) :
  0 <= value <= G ->
  ∃ st',
    recordEnvelopeAction G 1 0 value lastFrameInLoop emptyState = Some (tt, st')
    ∧ frame <$> take 2 (envelopePoints 1 0 (m_actions st')) = [0; 0].
Proof.
  intros Hv. unfold recordEnvelopeAction.
  rewrite bool_decide_eq_true_2 by lia.
  erewrite bind_Some by reflexivity.
  erewrite bind_Some by apply hasActions_run.
  cbn [m_actions emptyState]. rewrite bool_decide_eq_false_2 by (by intros ?%Exists_nil).
  cbn [negb]. rewrite recordFirstEnvelopeAction_run by constructor.
  eexists. split; [reflexivity|]. reflexivity.
Qed.

(** ** Envelopes: further points *)

Lemma getClosestAction_run (c : ID) (f : Frame) (ty : Status) (st : State) :
  ∃ a, getClosestAction c f ty st = Some (a, st)
    ∧ (id a = 0 ∨ (a ∈ m_actions st ∧ channelId a = c
                   ∧ getStatus (event a) = ty ∧ frame a <= f)).
Proof.
  eexists. split; [reflexivity|].
  assert (Hgen : ∀ (l : list Action) (acc : Action),
    l ⊆ m_actions st ->
    (id acc = 0 ∨ (acc ∈ m_actions st ∧ channelId acc = c
                   ∧ getStatus (event acc) = ty ∧ frame acc <= f)) ->
    let r := foldl (λ out a,
            if decide (channelId a = c ∧ getStatus (event a) = ty ∧ frame a <= f
                       ∧ (id out = 0 ∨ frame out < frame a))
            then a else out) acc l in
    id r = 0 ∨ (r ∈ m_actions st ∧ channelId r = c
                ∧ getStatus (event r) = ty ∧ frame r <= f)).
  { induction l as [|x l IH]; intros acc Hsub Hacc; [exact Hacc|].
    simpl. apply IH.
    - intros y Hy. apply Hsub. by right.
    - case_decide as Hd; [|exact Hacc].
      right. split; [apply Hsub; left|]. tauto. }
  apply Hgen; [done|]. by left.
Qed.

Lemma findAction_app (l k : list Action) (i : ID) :
  Actions.findAction (l ++ k) i
  = match Actions.findAction l i with
    | Some a => Some a
    | None => Actions.findAction k i
    end.
Proof.
  induction l as [|a l IH]; [done|].
  simpl. rewrite !findAction_cons. by case_decide.
Qed.

Lemma findAction_alterById (j i : ID) (g : Action -> Action) (l : list Action) :
  (∀ x, id (g x) = id x) ->
  Actions.findAction (Actions.alterById j g l) i
  = (λ x, if decide (id x = j) then g x else x) <$> Actions.findAction l i.
Proof.
  intros Hg. induction l as [|a l IH]; [done|].
  unfold Actions.alterById in *. csimpl. rewrite !findAction_cons, IH.
  assert (Hid : id (if decide (id a = j) then g a else a) = id a)
    by (case_decide; [apply Hg|done]).
  rewrite Hid. by destruct (decide (id a = i)).
Qed.

Lemma findAction_fresh (l : list Action) (i : ID) :
  Forall (λ a, id a ≠ i) l -> Actions.findAction l i = None.
Proof.
  induction 1 as [|a l Ha _ IH]; [done|].
  rewrite findAction_cons. by rewrite decide_False.
Qed.

(** What [recordEnvelopeAction] computes on a channel that has envelope
    actions, given the two neighbours of the requested frame. *)
Lemma recordNonFirstEnvelopeAction_run (G : Z) (c : ID) (f : Frame) (value : Z)
    (lastFrameInLoop : Frame) (st : State) (a1 a3 : Action) :
  ids_allocated st -> ids_unique st ->
  Forall (λ a, 0 <= frame a) (m_actions st) ->
  0 <= value <= G ->
  envelopeOf c (m_actions st) ≠ [] ->
  getClosestAction c f CHANNEL_CC st = Some (a1, st) ->
  id a1 ≠ 0 ->
  Actions.nextOf (m_actions st) a1 = Some a3 ->
  let shifted := if decide (frame a1 = f) then f + 1
                 else if decide (frame a3 = f) then f - 1
                 else f in
  let i2 := lastActionId st + 1 in
  let point := mkAction i2 c shifted (makeFrom3Bytes CHANNEL_CC 0 value)
                 (id a1) (id a3) in
  recordEnvelopeAction G c f value lastFrameInLoop st
  = Some (tt,
      if decide (frame a1 = shifted ∨ frame a3 = shifted) then st
      else mkState
             (Actions.alterById (id a3) (setPrevId i2)
                (Actions.alterById (id a1) (setNextId i2) (m_actions st)) ++ [point])
             (m_liveActions st) i2 (<[c := true]> (channelHasActions st)) (swaps st)).
Proof.
  intros Halloc Huniq Hframes Hvalue Henv Hclosest Hvalid Hnext shifted i2 point.
  pose proof (ids_allocated_le st Halloc) as Hle.
  destruct Halloc as [Hlast _].
  (* what is known of the two neighbours *)
  destruct (getClosestAction_run c f CHANNEL_CC st) as (a & Ha & Hspec).
  rewrite Hclosest in Ha. injection Ha as <-.
  destruct Hspec as [?|(Hin1 & Hc1 & Hty1 & Hf1)]; [done|].
  assert (Hnext' := Hnext).
  apply nextOf_Some_inv in Hnext as (Hin3 & Hid3 & Hn0).
  rewrite Forall_forall in Hframes, Hle.
  pose proof (Hframes a1 Hin1) as Hpos1. pose proof (Hle a1 Hin1) as Hle1.
  pose proof (Hle a3 Hin3) as Hle3.
  (* the call, up to the collision test *)
  unfold recordEnvelopeAction.
  rewrite bool_decide_eq_true_2 by lia.
  erewrite bind_Some by reflexivity.
  erewrite bind_Some by apply hasActions_run.
  rewrite hasActions_envelope, (bool_decide_eq_true_2 _ Henv).
  cbn [negb]. unfold recordNonFirstEnvelopeAction.
  erewrite bind_Some by exact Hclosest.
  erewrite bind_Some by reflexivity.
  rewrite Hnext'. change (default noAction (Some a3)) with a3. unfold isValid.
  rewrite !bool_decide_eq_true_2 by lia.
  erewrite bind_Some by reflexivity.
  erewrite bind_Some by reflexivity.
  unfold fixVerticalEnvActions. fold shifted.
  destruct (decide (frame a1 = shifted ∨ frame a3 = shifted)) as [Hcol|Hcol].
  - by rewrite decide_True.
  - assert (shifted ≠ -1).
    { unfold shifted in *. repeat case_decide; lia. }
    rewrite decide_False by done.
    erewrite bind_Some by apply rec_run.
    rewrite updateSiblings_run. proj_simpl. fold i2.
    assert (Hl : ∀ g, Actions.alterById i2 g (m_actions st) = m_actions st).
    { intros g. apply alterById_fresh. apply Forall_forall.
      intros x Hx. specialize (Hle x Hx). unfold i2. lia. }
    rewrite !alterById_app, Hl.
    assert (id a1 ≠ i2 ∧ id a3 ≠ i2) as [? ?] by (unfold i2; lia).
    clearbody i2. repeat (alter_step; proj_simpl). reflexivity.
Qed.

(** C5. On a channel that has envelope actions, with [a1] the closest
    envelope action at or before the requested frame and [a3] its successor:
    the frame is moved forward by one when it is the frame of [a1], else back
    by one when it is the frame of [a3].  When the frame so obtained is still
    the frame of [a1] or of [a3], the call returns and leaves the whole state
    as it was.  Otherwise one action is appended at that frame, with the
    requested value, and spliced between the two: it points back at [a1] and
    forward at [a3], [a1] points forward at it and [a3] points back at it;
    no other link and no other action changes.  (Frames are not negative, as
    the data model has it, so that the frame obtained is never the -1 the
    code uses for a collision.) *)
Theorem recordEnvelopeAction_nonfirst (G : Z) (c : ID) (f : Frame) (value : Z)
    (lastFrameInLoop : Frame) (st : State) (a1 a3 : Action) :
  ids_allocated st -> ids_unique st ->
  Forall (λ a, 0 <= frame a) (m_actions st) ->
  0 <= value <= G ->
  envelopeOf c (m_actions st) ≠ [] ->
  getClosestAction c f CHANNEL_CC st = Some (a1, st) ->
  id a1 ≠ 0 ->
  Actions.nextOf (m_actions st) a1 = Some a3 ->
  let shifted := if decide (frame a1 = f) then f + 1
                 else if decide (frame a3 = f) then f - 1
                 else f in
  let i2 := lastActionId st + 1 in
  let point := mkAction i2 c shifted (makeFrom3Bytes CHANNEL_CC 0 value)
                 (id a1) (id a3) in
  ∃ st',
    recordEnvelopeAction G c f value lastFrameInLoop st = Some (tt, st')
    ∧ if decide (frame a1 = shifted ∨ frame a3 = shifted) then st' = st
      else
        m_actions st'
        = Actions.alterById (id a3) (setPrevId i2)
            (Actions.alterById (id a1) (setNextId i2) (m_actions st)) ++ [point]
        ∧ frame point ≠ frame a1 ∧ frame point ≠ frame a3
        ∧ ∃ a1' a3',
            Actions.prevOf (m_actions st') point = Some a1'
            ∧ Actions.nextOf (m_actions st') point = Some a3'
            ∧ id a1' = id a1 ∧ id a3' = id a3
            ∧ Actions.nextOf (m_actions st') a1' = Some point
            ∧ Actions.prevOf (m_actions st') a3' = Some point.
Proof.
  intros Halloc Huniq Hframes Hvalue Henv Hclosest Hvalid Hnext shifted i2 point.
  pose proof (recordNonFirstEnvelopeAction_run G c f value lastFrameInLoop st a1 a3
                Halloc Huniq Hframes Hvalue Henv Hclosest Hvalid Hnext) as Hrun.
  cbn zeta in Hrun. fold shifted i2 point in Hrun.
  eexists. split; [exact Hrun|].
  destruct (decide (frame a1 = shifted ∨ frame a3 = shifted)) as [Hcol|Hcol]; [done|].
  pose proof (ids_allocated_le st Halloc) as Hle.
  destruct Halloc as [Hlast _].
  destruct (getClosestAction_run c f CHANNEL_CC st) as (a & Ha & Hspec).
  rewrite Hclosest in Ha. injection Ha as <-.
  destruct Hspec as [?|(Hin1 & Hc1 & Hty1 & Hf1)]; [done|].
  assert (Hfind1 : Actions.findAction (m_actions st) (id a1) = Some a1)
    by (by apply findAction_unique).
  assert (Hfind3 : Actions.findAction (m_actions st) (id a3) = Some a3).
  { unfold Actions.nextOf in Hnext. case_decide; [done|].
    pose proof Hnext as [_ Hid3]%findAction_Some. by rewrite Hid3. }
  apply nextOf_Some_inv in Hnext as (Hin3 & Hid3 & Hn0).
  rewrite Forall_forall in Hle.
  proj_simpl. split; [done|].
  split; [cbn; intros E; apply Hcol; by left|].
  split; [cbn; intros E; apply Hcol; by right|].
  (* the resolved links of the new store *)
  set (l' := Actions.alterById (id a3) (setPrevId i2)
               (Actions.alterById (id a1) (setNextId i2) (m_actions st))).
  set (relink := λ x : Action,
         let y := if decide (id x = id a1) then setNextId i2 x else x in
         if decide (id y = id a3) then setPrevId i2 y else y).
  assert (Hrid : ∀ x, id (relink x) = id x).
  { intros x. unfold relink. cbn zeta. repeat case_decide; reflexivity. }
  assert (Hres : ∀ x, Actions.findAction (m_actions st) (id x) = Some x ->
            Actions.findAction (l' ++ [point]) (id x) = Some (relink x)).
  { intros x Hx. unfold l'.
    rewrite findAction_app, !findAction_alterById, Hx by done. reflexivity. }
  assert (Hnew : Actions.findAction (l' ++ [point]) i2 = Some point).
  { unfold l'. rewrite findAction_app, !findAction_alterById by done.
    rewrite findAction_fresh.
    - simpl. rewrite findAction_cons. by rewrite decide_True.
    - apply Forall_forall. intros x Hx. specialize (Hle x Hx). unfold i2. lia. }
  assert (Hn1 : nextId (relink a1) = i2).
  { unfold relink. cbn zeta. rewrite (decide_True (P := id a1 = id a1)) by done.
    by case_decide. }
  assert (Hp3 : prevId (relink a3) = i2).
  { unfold relink. cbn zeta.
    assert (Hid : id (if decide (id a3 = id a1) then setNextId i2 a3 else a3) = id a3)
      by (by case_decide).
    rewrite (decide_True _ _ Hid). reflexivity. }
  assert (i2 ≠ 0) by (unfold i2; lia).
  exists (relink a1), (relink a3).
  split.
  { unfold Actions.prevOf. change (prevId point) with (id a1).
    rewrite decide_False by done. by apply Hres. }
  split.
  { unfold Actions.nextOf. change (nextId point) with (id a3).
    rewrite decide_False by lia. by apply Hres. }
  split; [apply Hrid|]. split; [apply Hrid|].
  split.
  { unfold Actions.nextOf. rewrite Hn1, decide_False by done. exact Hnew. }
  { unfold Actions.prevOf. rewrite Hp3, decide_False by done. exact Hnew. }
Qed.

Lemma recordEnvelopeAction_nonfirst_witness :
  let a1 := mkAction 2 1 500 (makeFrom3Bytes CHANNEL_CC 0 64) 1 3 in
  let a3 := mkAction 3 1 1000 (makeFrom3Bytes CHANNEL_CC 0 127) 2 1 in
  ids_allocated envelopeState ∧ ids_unique envelopeState ∧
  Forall (λ a, 0 <= frame a) (m_actions envelopeState) ∧
  0 <= 30 <= 127 ∧
  envelopeOf 1 (m_actions envelopeState) ≠ [] ∧
  getClosestAction 1 700 CHANNEL_CC envelopeState = Some (a1, envelopeState) ∧
  id a1 ≠ 0 ∧
  Actions.nextOf (m_actions envelopeState) a1 = Some a3 ∧
  ∃ st',
    recordEnvelopeAction 127 1 700 30 1000 envelopeState = Some (tt, st')
    ∧ m_actions st'
      = [ mkAction 1 1 0 (makeFrom3Bytes CHANNEL_CC 0 127) 3 2;
          mkAction 2 1 500 (makeFrom3Bytes CHANNEL_CC 0 64) 1 6;
          mkAction 3 1 1000 (makeFrom3Bytes CHANNEL_CC 0 127) 6 1;
          mkAction 4 3 10 (makeFrom3Bytes CHANNEL_NOTE_ON 60 100) 0 5;
          mkAction 5 3 50 (makeFrom3Bytes CHANNEL_NOTE_OFF 60 100) 4 0;
          mkAction 6 1 700 (makeFrom3Bytes CHANNEL_CC 0 30) 2 3 ].
Proof.
  intros a1 a3.
  assert (H1 : ids_allocated envelopeState) by compute_done.
  assert (H2 : ids_unique envelopeState) by compute_done.
  assert (H3 : Forall (λ a, 0 <= frame a) (m_actions envelopeState)) by compute_done.
  assert (H4 : 0 <= 30 <= 127) by lia.
  assert (H5 : envelopeOf 1 (m_actions envelopeState) ≠ []) by compute_done.
  assert (H6 : getClosestAction 1 700 CHANNEL_CC envelopeState
               = Some (a1, envelopeState)) by reflexivity.
  assert (H7 : id a1 ≠ 0) by compute_done.
  assert (H8 : Actions.nextOf (m_actions envelopeState) a1 = Some a3) by reflexivity.
  repeat (split; [assumption|]).
  destruct (recordEnvelopeAction_nonfirst 127 1 700 30 1000 envelopeState a1 a3
              H1 H2 H3 H4 H5 H6 H7 H8) as (st' & Hrun & Hrest).
  exists st'. split; [exact Hrun|]. exact (proj1 Hrest).
Defined.

(** A second request for a frame whose successor is one frame away is
    rejected: the state is left as it was. *)
Example recordEnvelopeAction_rejected :
  let run := recordEnvelopeAction 127 1 500 30 1000 in
  ∃ st1, run envelopeState = Some (tt, st1)
    ∧ frame <$> envelopeOf 1 (m_actions st1) = [0; 500; 1000; 501]
    ∧ run st1 = Some (tt, st1).
Proof. eexists. split; [vm_compute; reflexivity|]. split; vm_compute; reflexivity. Qed.

(** The closest action is the latest of those at or before the frame. *)
Lemma getClosestAction_greatest (c : ID) (f : Frame) (ty : Status) (st : State)
    (a x : Action) :
  Forall (λ y, id y ≠ 0) (m_actions st) ->
  getClosestAction c f ty st = Some (a, st) ->
  x ∈ m_actions st -> channelId x = c -> getStatus (event x) = ty -> frame x <= f ->
  id a ≠ 0 ∧ frame x <= frame a.
Proof.
  intros Hids Hrun Hx Hc Hty Hf.
  assert (Hgen : ∀ (l : list Action) (acc : Action),
    Forall (λ y, id y ≠ 0) l ->
    let r := foldl (λ out a,
            if decide (channelId a = c ∧ getStatus (event a) = ty ∧ frame a <= f
                       ∧ (id out = 0 ∨ frame out < frame a))
            then a else out) acc l in
    (id acc ≠ 0 -> id r ≠ 0 ∧ frame acc <= frame r)
    ∧ (x ∈ l -> id r ≠ 0 ∧ frame x <= frame r)).
  { induction l as [|y l IH]; intros acc Hl.
    - simpl. split; [intros ?; split; [done|lia]|]. by intros ?%not_elem_of_nil.
    - apply Forall_cons in Hl as [Hy Hl]. simpl.
      set (acc' := if decide (channelId y = c ∧ getStatus (event y) = ty
                              ∧ frame y <= f ∧ (id acc = 0 ∨ frame acc < frame y))
                   then y else acc).
      destruct (IH acc' Hl) as [IH1 IH2].
      assert (Hacc : id acc ≠ 0 -> id acc' ≠ 0 ∧ frame acc <= frame acc').
      { intros Hv. unfold acc'. case_decide; [split; [done|lia]|split; [done|lia]]. }
      split.
      + intros Hv. destruct (Hacc Hv) as [Hv' Hle]. destruct (IH1 Hv'). split; [done|lia].
      + intros [Heq|Hin]%elem_of_cons; [subst y|by apply IH2].
        assert (id acc' ≠ 0 ∧ frame x <= frame acc') as [Hv' Hle].
        { unfold acc'. case_decide as Hd; [split; [done|lia]|].
          assert (id acc ≠ 0 ∧ ¬ frame acc < frame x) as [? ?] by tauto.
          split; [done|lia]. }
        destruct (IH1 Hv'). split; [done|lia]. }
  unfold getClosestAction, Actions.getClosestAction in Hrun.
  unfold mbind, M_bind, mret, M_ret, get in Hrun. injection Hrun as <-.
  by apply Hgen.
Qed.

Lemma envelopeOf_alterById (c i : ID) (g : Action -> Action) (l : list Action) :
  (∀ x, channelId (g x) = channelId x ∧ event (g x) = event x ∧ frame (g x) = frame x) ->
  frame <$> envelopeOf c (Actions.alterById i g l) = frame <$> envelopeOf c l.
Proof.
  intros Hg. unfold envelopeOf, Actions.alterById.
  induction l as [|x l IH]; [done|].
  csimpl. destruct (Hg x) as (Hc & He & Hf).
  rewrite !filter_cons.
  assert (Heq : ∀ y : Action, channelId y = channelId x -> event y = event x ->
            frame y = frame x ->
            (frame <$> (if decide (channelId y = c ∧ getStatus (event y) = CHANNEL_CC)
                        then y :: filter (λ a, channelId a = c ∧ getStatus (event a) = CHANNEL_CC)
                                    ((λ a, if decide (id a = i) then g a else a) <$> l)
                        else filter (λ a, channelId a = c ∧ getStatus (event a) = CHANNEL_CC)
                                    ((λ a, if decide (id a = i) then g a else a) <$> l)))
            = frame <$> (if decide (channelId x = c ∧ getStatus (event x) = CHANNEL_CC)
                         then x :: filter (λ a, channelId a = c ∧ getStatus (event a) = CHANNEL_CC) l
                         else filter (λ a, channelId a = c ∧ getStatus (event a) = CHANNEL_CC) l)).
  { intros y Hyc Hye Hyf. rewrite Hyc, Hye.
    case_decide; csimpl; rewrite IH; [by rewrite Hyf|done]. }
  destruct (decide (id x = i)); by apply Heq.
Qed.

(** X13. The path that [recordEnvelopeAction] takes on a channel that has
    envelope actions keeps the frames of the envelope distinct, when the
    successor of the closest action is the next one in frame order. *)
Lemma recordNonFirstEnvelopeAction_no_vertical (G : Z) (c : ID) (f : Frame)
    (value : Z) (lastFrameInLoop : Frame) (st st' : State) (a1 a3 : Action) :
  ids_allocated st -> ids_unique st ->
  Forall (λ a, 0 <= frame a) (m_actions st) ->
  0 <= value <= G ->
  envelopeOf c (m_actions st) ≠ [] ->
  getClosestAction c f CHANNEL_CC st = Some (a1, st) ->
  id a1 ≠ 0 ->
  Actions.nextOf (m_actions st) a1 = Some a3 ->
  (∀ x, x ∈ envelopeOf c (m_actions st) -> frame a1 < frame x ->
        frame a1 < frame a3 <= frame x) ->
  NoDup (frame <$> envelopeOf c (m_actions st)) ->
  recordEnvelopeAction G c f value lastFrameInLoop st = Some (tt, st') ->
  NoDup (frame <$> envelopeOf c (m_actions st')).
Proof.
  intros Halloc Huniq Hframes Hvalue Henv Hclosest Hvalid Hnext Hsucc Hnd Hrun.
  rewrite (recordNonFirstEnvelopeAction_run G c f value lastFrameInLoop st a1 a3)
    in Hrun by done.
  injection Hrun as <-.
  set (shifted := if decide (frame a1 = f) then f + 1
                  else if decide (frame a3 = f) then f - 1 else f) in *.
  destruct (decide (frame a1 = shifted ∨ frame a3 = shifted)) as [Hcol|Hcol]; [done|].
  proj_simpl. unfold envelopeOf at 1. rewrite filter_app.
  rewrite (filter_cons_True _ _ []) by done.
  rewrite fmap_app. fold (envelopeOf c (Actions.alterById (id a3) (setPrevId (lastActionId st + 1))
                 (Actions.alterById (id a1) (setNextId (lastActionId st + 1)) (m_actions st)))).
  rewrite !envelopeOf_alterById by done.
  apply NoDup_app. split; [done|]. split; [|apply NoDup_singleton].
  intros fr Hfr Hnew. apply list_elem_of_singleton in Hnew. cbn in Hnew. subst fr.
  apply list_elem_of_fmap in Hfr as (x & Hfx & Hx).
  (* an envelope action at the frame of the new point *)
  assert (Hids : Forall (λ y, id y ≠ 0) (m_actions st)).
  { destruct Halloc as [_ Hall]. apply Forall_app in Hall as [Hall _].
    eapply Forall_impl; [exact Hall|]. simpl. intros y Hy. lia. }
  pose proof Hx as Hx'. unfold envelopeOf in Hx'.
  apply list_elem_of_filter in Hx' as [[Hxc Hxty] Hxin].
  destruct (getClosestAction_run c f CHANNEL_CC st) as (a & Ha & Hspec).
  rewrite Hclosest in Ha. injection Ha as <-.
  destruct Hspec as [?|(_ & _ & _ & Hf1)]; [done|].
  assert (Hgreat : frame x <= f -> frame x <= frame a1).
  { intros Hle.
    by destruct (getClosestAction_greatest c f CHANNEL_CC st a1 x Hids Hclosest Hxin Hxc Hxty Hle). }
  unfold shifted in *. repeat case_decide.
  - (* moved forward: the successor would be there *)
    assert (frame a1 < frame x) as Hlt by lia.
    specialize (Hsucc x Hx Hlt). apply Hcol. right. lia.
  - apply Hcol. left. lia.
  - apply Hcol. left. lia.
Qed.

Lemma recordNonFirstEnvelopeAction_no_vertical_witness :
  ∃ st', recordEnvelopeAction 127 1 700 30 1000 envelopeState = Some (tt, st')
    ∧ NoDup (frame <$> envelopeOf 1 (m_actions st')).
Proof.
  eexists. split; [vm_compute; reflexivity|].
  apply (recordNonFirstEnvelopeAction_no_vertical 127 1 700 30 1000 envelopeState _
           (mkAction 2 1 500 (makeFrom3Bytes CHANNEL_CC 0 64) 1 3)
           (mkAction 3 1 1000 (makeFrom3Bytes CHANNEL_CC 0 127) 2 1));
    try first [ lia | reflexivity | compute_done | vm_compute; reflexivity ].
  intros x Hx. vm_compute in Hx.
  repeat (apply elem_of_cons in Hx as [->|Hx]); cbn; try lia.
  by apply not_elem_of_nil in Hx.
Defined.

(** ** Envelopes: deleting a point *)

Lemma ids_unique_eq (l : list Action) (x y : Action) :
  NoDup (id <$> l) -> x ∈ l -> y ∈ l -> id x = id y -> x = y.
Proof.
  intros Hnd (i & Hi)%list_elem_of_lookup_1 (j & Hj)%list_elem_of_lookup_1 Heq.
  assert (i = j).
  { eapply (NoDup_lookup _ _ _ (id x) Hnd); rewrite list_lookup_fmap.
    - by rewrite Hi.
    - by rewrite Hj, Heq. }
  subst j. congruence.
Qed.

Lemma links_mirrored_next (l : list Action) (x y : Action) :
  links_mirrored l -> x ∈ l -> Actions.nextOf l x = Some y -> prevId y = id x.
Proof.
  intros H Hx Hy. unfold links_mirrored in H. rewrite Forall_forall in H.
  destruct (H x Hx) as [Hn _]. by rewrite Hy in Hn.
Qed.

Lemma links_mirrored_prev (l : list Action) (x y : Action) :
  links_mirrored l -> x ∈ l -> Actions.prevOf l x = Some y -> nextId y = id x.
Proof.
  intros H Hx Hy. unfold links_mirrored in H. rewrite Forall_forall in H.
  destruct (H x Hx) as [_ Hp]. by rewrite Hy in Hp.
Qed.

(** Settle the innermost test on ids of the goal. *)
Ltac decide_inner :=
  match goal with
  | |- context [decide (?u = ?k)] =>
      lazymatch u with
      | context [decide _] => fail
      | _ => first [ rewrite (decide_True (P := u = k)) by (proj_simpl; lia)
                   | rewrite (decide_False (P := u = k)) by (proj_simpl; lia) ]
      end
  end.

(** The two [updateSiblings] of [deleteEnvelopeAction] amount, on a store
    with mirrored links, to linking the two neighbours to each other. *)
Lemma relink_neighbours (l : list Action) (a a1 a1prev a3 a3next : Action) :
  NoDup (id <$> l) -> links_mirrored l -> a ∈ l ->
  Actions.prevOf l a = Some a1 -> Actions.nextOf l a = Some a3 ->
  Actions.prevOf l a1 = Some a1prev -> Actions.nextOf l a3 = Some a3next ->
  Actions.alterById (id a3next) (setPrevId (id a3))
    (Actions.alterById (id a1) (setNextId (id a3))
      (Actions.alterById (id a3) (λ x, setNextId (id a3next) (setPrevId (id a1) x))
        (Actions.alterById (id a3) (setPrevId (id a1))
          (Actions.alterById (id a1prev) (setNextId (id a1))
            (Actions.alterById (id a1)
               (λ x, setNextId (id a3) (setPrevId (id a1prev) x)) l)))))
  = Actions.alterById (id a3) (setPrevId (id a1))
      (Actions.alterById (id a1) (setNextId (id a3)) l).
Proof.
  intros Hnd Hmir Ha Hp Hn Hpp Hnn.
  pose proof (links_mirrored_prev l a a1 Hmir Ha Hp) as M1.
  pose proof (links_mirrored_next l a a3 Hmir Ha Hn) as M3.
  apply prevOf_Some_inv in Hp as (Hin1 & E1 & _).
  apply nextOf_Some_inv in Hn as (Hin3 & E3 & _).
  pose proof (links_mirrored_prev l a1 a1prev Hmir Hin1 Hpp) as MP.
  pose proof (links_mirrored_next l a3 a3next Hmir Hin3 Hnn) as MN.
  apply prevOf_Some_inv in Hpp as (HinP & EP & _).
  apply nextOf_Some_inv in Hnn as (HinN & EN & _).
  unfold Actions.alterById. rewrite <- !list_fmap_compose.
  apply list_fmap_ext. intros i x Hx%list_elem_of_lookup_2. cbn [compose].
  assert (Hu : ∀ y, y ∈ l -> id x = id y -> x = y)
    by (intros y Hy; by apply (ids_unique_eq l)).
  destruct (decide (id x = id a1)) as [D1|D1];
  destruct (decide (id x = id a1prev)) as [DP|DP];
  destruct (decide (id x = id a3)) as [D3|D3];
  destruct (decide (id x = id a3next)) as [DN|DN];
  destruct (decide (id x = id a)) as [DA|DA];
  repeat match goal with
         | H : id x = id ?y |- _ => apply Hu in H; [subst y|assumption]
         end;
  repeat decide_inner;
  clear Hu; destruct x; unfold setPrevId, setNextId; cbn in *; f_equal; lia.
Qed.

Lemma isBoundaryEnvelopeAction_run (a a1 a3 : Action) (st : State) :
  Actions.prevOf (m_actions st) a = Some a1 ->
  Actions.nextOf (m_actions st) a = Some a3 ->
  isBoundaryEnvelopeAction a st
  = Some (bool_decide (frame a1 > frame a) || bool_decide (frame a3 < frame a), st).
Proof.
  intros Hp Hn. unfold isBoundaryEnvelopeAction.
  erewrite bind_Some by reflexivity. rewrite Hp, Hn. reflexivity.
Qed.

Lemma clearActions_run (c : ID) (ty : Status) (st : State) :
  let l := filter (λ x, ¬ (channelId x = c ∧ getStatus (event x) = ty)) (m_actions st) in
  clearActions c ty st
  = Some (tt, mkState l (m_liveActions st) (lastActionId st)
      (<[c := bool_decide (Exists (Actions.ofChannelAndType c None) l)]>
         (channelHasActions st))
      (swaps st ++ [HARD])).
Proof. reflexivity. Qed.

Lemma deleteAction_run (c i : ID) (st : State) :
  let l := filter (λ x, id x ≠ i) (m_actions st) in
  deleteAction c i st
  = Some (tt, mkState l (m_liveActions st) (lastActionId st)
      (<[c := bool_decide (Exists (Actions.ofChannelAndType c None) l)]>
         (channelHasActions st))
      (swaps st ++ [HARD])).
Proof. reflexivity. Qed.

(** C6. For an action [a] whose [prev] and [next] resolve to [a1] and [a3]:
    when [a] is a boundary action ([a1] lies after it or [a3] before it),
    [deleteEnvelopeAction c a] removes from the store every action of
    channel [c] that has the status of [a], and nothing else.  Otherwise, on
    a store with unique ids and mirrored links, the two [updateSiblings]
    come first and amount to linking [a1] forward to [a3] and [a3] back to
    [a1], every other link being kept, with [a] still stored; the call is
    then the deletion of [a] alone from that relinked store.  Both paths
    request one structural swap. *)
Theorem deleteEnvelopeAction_spec (c : ID) (a a1 a3 : Action) (st : State) :
  Actions.prevOf (m_actions st) a = Some a1 ->
  Actions.nextOf (m_actions st) a = Some a3 ->
  if decide (frame a1 > frame a ∨ frame a3 < frame a) then
    ∃ st',
      deleteEnvelopeAction c a st = Some (tt, st')
      ∧ m_actions st'
        = filter (λ x, ¬ (channelId x = c
                          ∧ getStatus (event x) = getStatus (event a)))
                 (m_actions st)
      ∧ swaps st' = swaps st ++ [HARD]
  else
    ∀ a1prev a3next,
      ids_unique st -> links_mirrored (m_actions st) -> a ∈ m_actions st ->
      Actions.prevOf (m_actions st) a1 = Some a1prev ->
      Actions.nextOf (m_actions st) a3 = Some a3next ->
      let relinked :=
        Actions.alterById (id a3) (setPrevId (id a1))
          (Actions.alterById (id a1) (setNextId (id a3)) (m_actions st)) in
      (updateSiblings (id a1) (id a1prev) (id a3);;
       updateSiblings (id a3) (id a1) (id a3next)) st
      = Some (tt, setActions relinked st)
      ∧ deleteEnvelopeAction c a st = deleteAction c (id a) (setActions relinked st)
      ∧ ∃ st',
          deleteEnvelopeAction c a st = Some (tt, st')
          ∧ m_actions st' = filter (λ x, id x ≠ id a) relinked
          ∧ swaps st' = swaps st ++ [HARD].
Proof.
  intros Hp Hn.
  pose proof (isBoundaryEnvelopeAction_run a a1 a3 st Hp Hn) as Hb.
  destruct (decide (frame a1 > frame a ∨ frame a3 < frame a)) as [Hcase|Hcase].
  - unfold deleteEnvelopeAction. erewrite bind_Some by exact Hb.
    assert (bool_decide (frame a1 > frame a) || bool_decide (frame a3 < frame a) = true)
      as -> by (apply orb_true_iff; rewrite !bool_decide_eq_true; exact Hcase).
    rewrite clearActions_run. eexists. split; [reflexivity|]. done.
  - intros a1prev a3next Huniq Hmir Ha Hpp Hnn relinked.
    assert (Hrel :
      (updateSiblings (id a1) (id a1prev) (id a3);;
       updateSiblings (id a3) (id a1) (id a3next)) st
      = Some (tt, setActions relinked st)).
    { erewrite bind_Some by apply updateSiblings_run.
      rewrite updateSiblings_run. proj_simpl.
      rewrite (relink_neighbours (m_actions st) a a1 a1prev a3 a3next) by done.
      reflexivity. }
    assert (Hdel : deleteEnvelopeAction c a st
                   = deleteAction c (id a) (setActions relinked st)).
    { unfold deleteEnvelopeAction. erewrite bind_Some by exact Hb.
      assert (bool_decide (frame a1 > frame a) || bool_decide (frame a3 < frame a) = false)
        as -> by (apply orb_false_iff; rewrite !bool_decide_eq_false; tauto).
      erewrite bind_Some by reflexivity.
      rewrite Hp. erewrite bind_Some by reflexivity.
      rewrite Hpp. erewrite bind_Some by reflexivity.
      rewrite Hn. erewrite bind_Some by reflexivity.
      rewrite Hnn. erewrite bind_Some by reflexivity.
      erewrite bind_Some by apply updateSiblings_run.
      erewrite bind_Some by apply updateSiblings_run. proj_simpl.
      rewrite (relink_neighbours (m_actions st) a a1 a1prev a3 a3next) by done.
      reflexivity. }
    split; [exact Hrel|]. split; [exact Hdel|].
    rewrite Hdel, deleteAction_run. eexists. split; [reflexivity|]. done.
Qed.

Lemma deleteEnvelopeAction_spec_witness :
  let a1 := mkAction 1 1 0 (makeFrom3Bytes CHANNEL_CC 0 127) 3 2 in
  let a := mkAction 2 1 500 (makeFrom3Bytes CHANNEL_CC 0 64) 1 3 in
  let a3 := mkAction 3 1 1000 (makeFrom3Bytes CHANNEL_CC 0 127) 2 1 in
  Actions.prevOf (m_actions envelopeState) a = Some a1 ∧
  Actions.nextOf (m_actions envelopeState) a = Some a3 ∧
  ids_unique envelopeState ∧ links_mirrored (m_actions envelopeState) ∧
  a ∈ m_actions envelopeState ∧
  Actions.prevOf (m_actions envelopeState) a1 = Some a3 ∧
  Actions.nextOf (m_actions envelopeState) a3 = Some a1 ∧
  ∃ st',
    deleteEnvelopeAction 1 a envelopeState = Some (tt, st')
    ∧ m_actions st'
      = [ mkAction 1 1 0 (makeFrom3Bytes CHANNEL_CC 0 127) 3 3;
          mkAction 3 1 1000 (makeFrom3Bytes CHANNEL_CC 0 127) 1 1;
          mkAction 4 3 10 (makeFrom3Bytes CHANNEL_NOTE_ON 60 100) 0 5;
          mkAction 5 3 50 (makeFrom3Bytes CHANNEL_NOTE_OFF 60 100) 4 0 ]
    ∧ swaps st' = [HARD].
Proof.
  intros a1 a a3.
  assert (H1 : Actions.prevOf (m_actions envelopeState) a = Some a1) by reflexivity.
  assert (H2 : Actions.nextOf (m_actions envelopeState) a = Some a3) by reflexivity.
  assert (H3 : ids_unique envelopeState) by compute_done.
  assert (H4 : links_mirrored (m_actions envelopeState))
    by (vm_compute; repeat constructor).
  assert (H5 : a ∈ m_actions envelopeState) by compute_done.
  assert (H6 : Actions.prevOf (m_actions envelopeState) a1 = Some a3) by reflexivity.
  assert (H7 : Actions.nextOf (m_actions envelopeState) a3 = Some a1) by reflexivity.
  repeat (split; [assumption|]).
  destruct (deleteEnvelopeAction_spec 1 a a1 a3 envelopeState H1 H2 a3 a1 H3 H4 H5 H6 H7)
    as (_ & _ & st' & Hrun & Hact & Hswap).
  exists st'. split; [exact Hrun|]. split; [exact Hact|exact Hswap].
Defined.

(** Deleting the boundary action of frame 0 clears the envelope of the
    channel and leaves the notes of the other channel. *)
Example deleteEnvelopeAction_boundary :
  (λ r, m_actions r.2) <$>
    deleteEnvelopeAction 1 (mkAction 1 1 0 (makeFrom3Bytes CHANNEL_CC 0 127) 3 2)
      envelopeState
  = Some [ mkAction 4 3 10 (makeFrom3Bytes CHANNEL_NOTE_ON 60 100) 0 5;
           mkAction 5 3 50 (makeFrom3Bytes CHANNEL_NOTE_OFF 60 100) 4 0 ].
Proof. vm_compute. reflexivity. Qed.

(** ** Live recording: [consolidate] *)

Lemma list_find_fst_rel {A B : Type} (P : A -> Prop) (Q : B -> Prop)
    `{!∀ x, Decision (P x)} `{!∀ y, Decision (Q y)} (l : list A) (k : list B) :
  Forall2 (λ x y, P x ↔ Q y) l k ->
  fst <$> list_find P l = fst <$> list_find Q k.
Proof.
  induction 1 as [|x y l k Hxy _ IH]; [done|].
  csimpl. destruct (decide (P x)) as [HP|HP], (decide (Q y)) as [HQ|HQ];
    try tauto; try done.
  destruct (list_find P l) as [[? ?]|], (list_find Q k) as [[? ?]|];
    simpl in *; congruence.
Qed.

Lemma linkedAt_zero (live : list Action) : imap (linkedAt live 0) live = live.
Proof.
  apply list_eq. intros i. rewrite list_lookup_imap.
  destruct (live !! i) as [a|]; [|done]. simpl. f_equal.
  unfold linkedAt. simpl. try rewrite decide_False by lia. by destruct a.
Qed.

Lemma areComposite_linkedAt (live : list Action) (m k k' : nat) (a b : Action) :
  areComposite (linkedAt live m k a) (linkedAt live m k' b) = areComposite a b.
Proof. reflexivity. Qed.

(** From [m] to [m + 1] consolidated positions. *)
Lemma linkedAt_S (live : list Action) (m k : nat) (a : Action) :
  linkedAt live (S m) k a =
  let x := linkedAt live m k a in
  let x := if decide (k = m)
           then match partner live m with
                | Some j => setNextId (default 0 (id <$> live !! j)) x
                | None => x
                end
           else x in
  if decide (partner live m = Some k)
  then setPrevId (default 0 (id <$> live !! m)) x else x.
Proof.
  unfold linkedAt. cbn [lastSelector]. cbn zeta.
  destruct (decide (k = m)) as [->|Hk].
  - rewrite (decide_False (P := (m < m)%nat)), (decide_True (P := (m < S m)%nat)) by lia.
    destruct (partner live m) as [j|]; by case_decide.
  - destruct (decide (k < m)%nat), (decide (k < S m)%nat); try lia; by case_decide.
Qed.

(** One turn of the first loop of [consolidate()]. *)
Lemma consolidate_at_linkedAt (live : list Action) (m : nat) :
  consolidate_at m (imap (linkedAt live m) live) = imap (linkedAt live (S m)) live.
Proof.
  unfold consolidate_at. rewrite list_lookup_imap.
  destruct (live !! m) as [a1|] eqn:Hm; simpl.
  2:{ (* past the end: nothing changes *)
      assert (Hp : partner live m = None) by (unfold partner; by rewrite Hm).
      apply imap_ext. intros k a Hk.
      assert (k ≠ m) by (intros ->; congruence).
      rewrite linkedAt_S, Hp. cbn zeta.
      rewrite (decide_False (P := k = m)) by done.
      by rewrite (decide_False (P := None = Some k)). }
  (* the scan sees what it would see on the buffer as recorded *)
  assert (Hscan :
    fst <$> list_find (λ a2, areComposite (linkedAt live m m a1) a2 = true)
              (drop m (imap (linkedAt live m) live))
    = fst <$> list_find (λ a2, areComposite a1 a2 = true) (drop m live)).
  { apply list_find_fst_rel. apply Forall2_same_length_lookup_2.
    - by rewrite !length_drop, length_imap.
    - intros i x y Hx Hy. rewrite lookup_drop, list_lookup_imap in Hx.
      rewrite lookup_drop in Hy. rewrite Hy in Hx. simpl in Hx.
      injection Hx as <-. by rewrite areComposite_linkedAt. }
  assert (Hpartner : partner live m
     = (λ r, (m + r)%nat) <$>
       (fst <$> list_find (λ a2, areComposite a1 a2 = true) (drop m live))).
  { unfold partner. rewrite Hm. simpl.
    by destruct (list_find _ (drop m live)) as [[? ?]|]. }
  rewrite <- Hscan in Hpartner.
  destruct (list_find _ (drop m (imap (linkedAt live m) live))) as [[k a2]|] eqn:Hfind;
    simpl in Hpartner.
  - apply list_find_Some in Hfind as (Hk & _ & _).
    rewrite lookup_drop, list_lookup_imap in Hk.
    destruct (live !! (m + k)%nat) as [b|] eqn:Hb; [|done].
    simpl in Hk. injection Hk as <-.
    apply list_eq. intros i. rewrite list_lookup_imap.
    destruct (live !! i) as [x|] eqn:Hi.
    2:{ apply lookup_ge_None in Hi. simpl.
        apply lookup_ge_None. by rewrite !length_alter, length_imap. }
    simpl. rewrite linkedAt_S, Hpartner. cbn zeta.
    assert (Hid : ∀ j y, id (linkedAt live m j y) = id y) by done.
    destruct (decide (i = (m + k)%nat)) as [->|Hik].
    + rewrite list_lookup_alter_eq. rewrite (decide_True (P := Some _ = Some _)) by done.
      rewrite Hm. simpl.
      destruct (decide (m = (m + k)%nat)) as [Hmk|Hmk].
      * rewrite <- Hmk. rewrite list_lookup_alter_eq, list_lookup_imap, Hm. simpl.
        rewrite <- Hmk in Hb, Hi. assert (x = a1) by congruence. subst x.
        rewrite (decide_True (P := m = m)) by done.
        assert (b = a1) by congruence. subst b. reflexivity.
      * rewrite list_lookup_alter_ne by done. rewrite list_lookup_imap, Hi. simpl.
        rewrite (decide_False (P := (m + k)%nat = m)) by done. reflexivity.
    + rewrite list_lookup_alter_ne by done.
      rewrite (decide_False (P := Some _ = Some i)) by congruence.
      destruct (decide (i = m)) as [->|Him].
      * rewrite list_lookup_alter_eq, list_lookup_imap, Hi. simpl.
        rewrite Hb. simpl. reflexivity.
      * rewrite list_lookup_alter_ne by done. by rewrite list_lookup_imap, Hi.
  - apply imap_ext. intros i x Hi. rewrite linkedAt_S, Hpartner. cbn zeta.
    rewrite (decide_False (P := None = Some i)) by done.
    by destruct (decide (i = m)).
Qed.

Lemma consolidate_all_linkedAt (live : list Action) :
  consolidate_all live = imap (linkedAt live (length live)) live.
Proof.
  unfold consolidate_all.
  assert (H : ∀ m, foldl (λ l i, consolidate_at i l) live (seq 0 m)
                   = imap (linkedAt live m) live).
  { induction m as [|m IH]; [by rewrite linkedAt_zero|].
    rewrite seq_S, foldl_app, IH. simpl. apply consolidate_at_linkedAt. }
  apply H.
Qed.

Lemma partner_Some (live : list Action) (i j : nat) :
  partner live i = Some j ↔
  ∃ a b, live !! i = Some a ∧ live !! j = Some b ∧ (i <= j)%nat
         ∧ areComposite a b = true
         ∧ ∀ k c, (i <= k < j)%nat -> live !! k = Some c -> areComposite a c = false.
Proof.
  unfold partner. destruct (live !! i) as [a|] eqn:Hi; simpl.
  2:{ split; [done|]. by intros (a & b & ? & _). }
  split.
  - intros Hf. apply fmap_Some in Hf as ([k b] & Hfind & ->). simpl.
    apply list_find_Some in Hfind as (Hk & Hab & Hmin).
    rewrite lookup_drop in Hk. exists a, b.
    split; [done|]. split; [done|]. split; [lia|]. split; [done|].
    intros k' c Hk' Hc. specialize (Hmin (k' - i)%nat c).
    rewrite lookup_drop in Hmin. replace (i + (k' - i))%nat with k' in Hmin by lia.
    specialize (Hmin Hc). destruct (areComposite a c); [|done].
    exfalso. apply Hmin; [lia|done].
  - intros (a' & b & Ha & Hb & Hle & Hab & Hmin). injection Ha as <-.
    assert (Hfind : list_find (λ a2, areComposite a a2 = true) (drop i live)
                    = Some ((j - i)%nat, b)).
    { apply list_find_Some. rewrite lookup_drop.
      replace (i + (j - i))%nat with j by lia.
      split; [done|]. split; [done|].
      intros k c Hk Hlt. rewrite lookup_drop in Hk.
      rewrite (Hmin (i + k)%nat c) by (done || lia). done. }
    rewrite Hfind. simpl. f_equal. lia.
Qed.

Lemma lastSelector_last (live : list Action) (m i j : nat) :
  (i < m)%nat -> partner live i = Some j ->
  (∀ i', (i < i' < m)%nat -> partner live i' ≠ Some j) ->
  lastSelector live m j = Some i.
Proof.
  induction m as [|m IH]; intros Hi Hp Hlater; [lia|].
  simpl. destruct (decide (i = m)) as [->|Hne].
  - by rewrite decide_True.
  - rewrite decide_False by (apply Hlater; lia).
    apply IH; [lia|done|]. intros i' Hi'. apply Hlater. lia.
Qed.

Lemma lastSelector_none (live : list Action) (m j : nat) :
  (∀ i, (i < m)%nat -> partner live i ≠ Some j) ->
  lastSelector live m j = None.
Proof.
  induction m as [|m IH]; intros Hno; [done|].
  simpl. rewrite decide_False by (apply Hno; lia).
  apply IH. intros i Hi. apply Hno. lia.
Qed.

Lemma channelId_linkedAt (live : list Action) (m : nat) :
  channelId <$> imap (linkedAt live m) live = channelId <$> live.
Proof.
  apply list_eq. intros i. rewrite !list_lookup_fmap, list_lookup_imap.
  by destruct (live !! i).
Qed.

(** What [consolidate()] does.  It returns the set of the channel
    ids of the buffered actions, appends the buffer to the store and empties
    it.  The actions committed are the buffered ones, in order, with their
    ids, channels, frames and events, and with these links: the [nextId] of
    an action names its partner, the first action at or after its own
    position that is a note-off of the same note and channel when it is a
    note-on, and is left as recorded when there is none; the [prevId] of an
    action names the last action that has it as partner, and is left as
    recorded when there is none.  So a note-on and its partner point at each
    other whenever no later note-on has the same partner. *)
Theorem consolidate_links (st : State) :
  let live := m_liveActions st in
  ∃ live',
    consolidate st
    = Some (list_to_set (channelId <$> live),
            mkState (m_actions st ++ live') [] (lastActionId st)
                    (channelHasActions st) (swaps st))
    ∧ (∀ c, c ∈ (list_to_set (channelId <$> live) : gset Z)
            ↔ ∃ a, a ∈ live ∧ channelId a = c)
    ∧ length live' = length live
    ∧ (∀ i a a', live !! i = Some a -> live' !! i = Some a' ->
         id a' = id a ∧ channelId a' = channelId a
         ∧ frame a' = frame a ∧ event a' = event a)
    ∧ (∀ i j a' b, partner live i = Some j ->
         live' !! i = Some a' -> live !! j = Some b -> nextId a' = id b)
    ∧ (∀ i a a', partner live i = None ->
         live !! i = Some a -> live' !! i = Some a' -> nextId a' = nextId a)
    ∧ (∀ i j a b', partner live i = Some j ->
         (∀ i', (i < i')%nat -> partner live i' ≠ Some j) ->
         live !! i = Some a -> live' !! j = Some b' -> prevId b' = id a)
    ∧ (∀ j b b', (∀ i, partner live i ≠ Some j) ->
         live !! j = Some b -> live' !! j = Some b' -> prevId b' = prevId b).
Proof.
  intros live. exists (imap (linkedAt live (length live)) live).
  split.
  { unfold consolidate. munfold. cbn.
    fold live. rewrite consolidate_all_linkedAt, channelId_linkedAt. reflexivity. }
  split.
  { intros c. rewrite elem_of_list_to_set, list_elem_of_fmap.
    split; [intros (a & -> & Ha); by exists a|intros (a & Ha & <-); by exists a]. }
  split; [apply length_imap|].
  assert (Hlook : ∀ i a a', live !! i = Some a ->
            imap (linkedAt live (length live)) live !! i = Some a' ->
            a' = linkedAt live (length live) i a ∧ (i < length live)%nat).
  { intros i a a' Ha Ha'. rewrite list_lookup_imap, Ha in Ha'.
    simpl in Ha'. injection Ha' as <-. split; [done|]. by eapply lookup_lt_Some. }
  split; [|split; [|split; [|split]]].
  - intros i a a' Ha Ha'. destruct (Hlook i a a' Ha Ha') as [-> _]. done.
  - intros i j a' b Hp Ha' Hb.
    pose proof Hp as (a & b0 & Ha & _)%partner_Some.
    destruct (Hlook i a a' Ha Ha') as [-> Hlt].
    unfold linkedAt. simpl. rewrite decide_True by done. by rewrite Hp, Hb.
  - intros i a a' Hp Ha Ha'. destruct (Hlook i a a' Ha Ha') as [-> Hlt].
    unfold linkedAt. simpl. rewrite decide_True by done. by rewrite Hp.
  - intros i j a b' Hp Hlater Ha Hb'.
    pose proof Hp as (a0 & b & _ & Hb & _)%partner_Some.
    destruct (Hlook j b b' Hb Hb') as [-> _].
    unfold linkedAt. simpl.
    rewrite (lastSelector_last live (length live) i j).
    + by rewrite Ha.
    + by eapply lookup_lt_Some.
    + done.
    + intros i' Hi'. apply Hlater. lia.
  - intros j b b' Hno Hb Hb'. destruct (Hlook j b b' Hb Hb') as [-> _].
    unfold linkedAt. simpl. rewrite lastSelector_none; [done|].
    intros i _. apply Hno.
Qed.

(** The example of the specification: ON(60)@10, ON(64)@12, OFF(60)@50,
    OFF(64)@60 recorded live on channel 1 and consolidated: 10 is linked with
    50 and 12 with 60. *)
Example consolidate_example :
  (liveRec 1 (makeFrom3Bytes CHANNEL_NOTE_ON 60 100) 10;;
   liveRec 1 (makeFrom3Bytes CHANNEL_NOTE_ON 64 100) 12;;
   liveRec 1 (makeFrom3Bytes CHANNEL_NOTE_OFF 60 0) 50;;
   liveRec 1 (makeFrom3Bytes CHANNEL_NOTE_OFF 64 0) 60;;
   consolidate) emptyState
  = Some ({[1]},
          mkState
            [ mkAction 1 1 10 (makeFrom3Bytes CHANNEL_NOTE_ON 60 100) 0 3;
              mkAction 2 1 12 (makeFrom3Bytes CHANNEL_NOTE_ON 64 100) 0 4;
              mkAction 3 1 50 (makeFrom3Bytes CHANNEL_NOTE_OFF 60 0) 1 0;
              mkAction 4 1 60 (makeFrom3Bytes CHANNEL_NOTE_OFF 64 0) 2 0 ]
            [] 4 ∅ []).
Proof. vm_compute. reflexivity. Qed.

(** [liveRec] buffers an unlinked action with a new id. *)
Lemma liveRec_run (c : ID) (e : MidiEvent) (globalFrame : Frame) (st : State) :
  isNoteOnOff e = true ->
  liveRec c e globalFrame st
  = Some (tt, mkState (m_actions st)
      (m_liveActions st ++ [mkAction (lastActionId st + 1) c globalFrame e 0 0])
      (lastActionId st + 1) (channelHasActions st) (swaps st)).
Proof. intros He. unfold liveRec. by rewrite He. Qed.

(** C2, at the failing inputs.  Two note-ons of the same note overlap on
    channel 1, in chronological order.

    ON(60)@10, ON(60)@20, OFF(60)@30: the scan from the first note-on finds
    the note-off and gives it to the first note-on as [nextId]; the scan
    from the second note-on finds the same note-off, which is not skipped
    although it is paired, and overwrites its [prevId].  The first note-on
    points at a note-off that does not point back: the pair the scan matched
    is not linked both ways.

    ON(60)@10, ON(60)@20, OFF(60)@30, OFF(60)@40: both note-ons take the
    note-off at 30, and the note-off at 40 is committed without any link,
    although the buffer holds as many note-offs as note-ons. *)
Theorem consolidate_overlap_unpaired :
  let on1 := mkAction 1 1 10 (makeFrom3Bytes CHANNEL_NOTE_ON 60 100) 0 0 in
  let on2 := mkAction 2 1 20 (makeFrom3Bytes CHANNEL_NOTE_ON 60 100) 0 0 in
  let off1 := mkAction 3 1 30 (makeFrom3Bytes CHANNEL_NOTE_OFF 60 0) 0 0 in
  let off2 := mkAction 4 1 40 (makeFrom3Bytes CHANNEL_NOTE_OFF 60 0) 0 0 in
  ((liveRec 1 (event on1) 10;; liveRec 1 (event on2) 20;;
    liveRec 1 (event off1) 30;; consolidate) emptyState
   = Some ({[1]},
       mkState [setNextId 3 on1; setNextId 3 on2; setPrevId 2 off1] [] 3 ∅ [])
   ∧ nextId (setNextId 3 on1) = id off1
   ∧ prevId (setPrevId 2 off1) ≠ id on1)
  ∧ ((liveRec 1 (event on1) 10;; liveRec 1 (event on2) 20;;
      liveRec 1 (event off1) 30;; liveRec 1 (event off2) 40;;
      consolidate) emptyState
     = Some ({[1]},
         mkState [setNextId 3 on1; setNextId 3 on2; setPrevId 2 off1; off2]
           [] 4 ∅ [])
     ∧ prevId off2 = 0 ∧ nextId off2 = 0
     ∧ nextId (setNextId 3 on1) = nextId (setNextId 3 on2)).
Proof.
  intros on1 on2 off1 off2.
  split.
  - split; [vm_compute; reflexivity|]. split; [reflexivity|].
    vm_compute. discriminate.
  - split; [vm_compute; reflexivity|]. repeat split.
Qed.

(** * Further properties of the recorder

    Invariants, round trips and edge behaviour of the operations, read off
    the code. *)

(** ** Proof support: the monad, lists, well-formed states *)

Lemma bind_None {A B : Type} (m : M A) (k : A -> M B) (st : State) :
  m st = None -> (m ≫= k) st = None.
Proof. intros H. unfold mbind, M_bind. by rewrite H. Qed.





Lemma filter_all {A : Type} (P : A -> Prop) `{∀ a, Decision (P a)} (l : list A) :
  Forall P l -> filter P l = l.
Proof.
  induction 1 as [|x l Hx _ IH]; [done|].
  rewrite filter_cons_True by done. by rewrite IH.
Qed.

Lemma filter_nil_Forall {A : Type} (P : A -> Prop) `{∀ a, Decision (P a)} (l : list A) :
  filter P l = [] -> Forall (λ x, ¬ P x) l.
Proof.
  intros Hnil. apply Forall_forall. intros x Hx HP.
  by apply (filter_nil_not_elem_of P l x).
Qed.

Ltac decide_closed := apply (bool_decide_unpack _); vm_compute; exact I.

Ltac store_ok_closed := unfold store_ok, ids_allocated; decide_closed.

Ltac elem_any :=
  apply list_elem_of_here + (apply list_elem_of_further; elem_any).

(** Consistency of the links of a closed store: each link is followed to
    the action it names. *)
Ltac links_closed_store :=
  unfold links_consistent;
  repeat (apply Forall_cons; split;
          [split; (by left) || (right; eexists; split; [elem_any|]; done)|]);
  apply Forall_nil_2.

Lemma ids_allocated_alt (st : State) :
  ids_allocated st ↔
  0 <= lastActionId st
  ∧ Forall (λ i, 0 < i <= lastActionId st) (id <$> (m_actions st ++ m_liveActions st)).
Proof. unfold ids_allocated. by rewrite Forall_fmap. Qed.

Lemma store_ok_alt (st : State) :
  store_ok st ↔
  0 <= lastActionId st
  ∧ Forall (λ i, 0 < i <= lastActionId st)
      ((id <$> m_actions st) ++ (id <$> m_liveActions st))
  ∧ NoDup ((id <$> m_actions st) ++ (id <$> m_liveActions st)).
Proof.
  unfold store_ok. rewrite ids_allocated_alt, fmap_app. tauto.
Qed.

Lemma store_ok_NoDup (st : State) : store_ok st -> NoDup (id <$> m_actions st).
Proof.
  intros [_ H]. rewrite fmap_app in H. by apply NoDup_app in H as [? _].
Qed.

(** New, distinct ids can join the ids in use. *)
Lemma NoDup_ids_fresh (n : Z) (l k : list Z) :
  NoDup l -> Forall (λ i, i <= n) l ->
  NoDup k -> Forall (λ i, n < i) k ->
  NoDup (l ++ k).
Proof.
  intros Hl Hle Hk Hgt. apply NoDup_app. split; [done|]. split; [|done].
  intros x Hx Hx'.
  rewrite Forall_forall in Hle, Hgt.
  specialize (Hle x Hx). specialize (Hgt x Hx'). lia.
Qed.

(** A block of actions with new, distinct ids appended to the store. *)
Lemma store_ok_append (st : State) (k : list Action) (n : Z)
    (flags : gmap Z bool) (sw : list SwapType) :
  store_ok st ->
  NoDup (id <$> k) -> Forall (λ a, lastActionId st < id a <= n) k ->
  lastActionId st <= n ->
  store_ok (mkState (m_actions st ++ k) (m_liveActions st) n flags sw).
Proof.
  intros (H0 & Hall & Hnd)%store_ok_alt Hk Hfresh Hn.
  apply store_ok_alt. simpl. split; [lia|].
  assert (Hfresh' : Forall (λ i, lastActionId st < i <= n) (id <$> k))
    by (by apply Forall_fmap).
  assert (Hperm : ((id <$> m_actions st ++ k) ++ (id <$> m_liveActions st))
                  ≡ₚ ((id <$> m_actions st) ++ (id <$> m_liveActions st)) ++ (id <$> k)).
  { rewrite fmap_app. rewrite <- !app_assoc. apply Permutation_app_head.
    apply Permutation_app_comm. }
  rewrite Hperm. split.
  - apply Forall_app. split.
    + eapply Forall_impl; [exact Hall|]. simpl. lia.
    + eapply Forall_impl; [exact Hfresh'|]. simpl. lia.
  - apply (NoDup_ids_fresh (lastActionId st)); [done| |done|].
    + eapply Forall_impl; [exact Hall|]. simpl. lia.
    + eapply Forall_impl; [exact Hfresh'|]. simpl. lia.
Qed.




Lemma links_consistent_app (l k : list Action) :
  links_consistent l -> links_consistent k -> links_consistent (l ++ k).
Proof.
  unfold links_consistent. rewrite !Forall_forall. intros Hl Hk x Hx.
  apply elem_of_app in Hx as [Hx|Hx].
  - destruct (Hl x Hx) as [Hn Hp]. split.
    + destruct Hn as [?|(y & Hy & ?)]; [by left|right].
      exists y. split; [apply elem_of_app; by left|done].
    + destruct Hp as [?|(y & Hy & ?)]; [by left|right].
      exists y. split; [apply elem_of_app; by left|done].
  - destruct (Hk x Hx) as [Hn Hp]. split.
    + destruct Hn as [?|(y & Hy & ?)]; [by left|right].
      exists y. split; [apply elem_of_app; by right|done].
    + destruct Hp as [?|(y & Hy & ?)]; [by left|right].
      exists y. split; [apply elem_of_app; by right|done].
Qed.



Lemma hasActions_onChannel (c : ID) (l : list Action) :
  bool_decide (Exists (Actions.ofChannelAndType c None) l)
  = bool_decide (onChannel c l ≠ []).
Proof.
  apply bool_decide_ext. unfold onChannel. rewrite Exists_exists. split.
  - intros (x & Hx & [HP _]) Hnil.
    assert (x ∈ filter (λ a, channelId a = c) l) as Hin
      by (by apply list_elem_of_filter).
    rewrite Hnil in Hin. by apply not_elem_of_nil in Hin.
  - intros Hne. destruct (filter _ l) as [|x k] eqn:Hf; [done|].
    assert (x ∈ filter (λ a, channelId a = c) l) as Hin by (rewrite Hf; left).
    apply list_elem_of_filter in Hin as [HP Hx]. exists x. split; [done|].
    split; [done|]. done.
Qed.

(** ** [fixVerticalEnvActions] and [areComposite] *)

(** X1. [fixVerticalEnvActions f a1 a2] returns -1 or a frame that is
    neither the frame of [a1] nor the frame of [a2] and lies within one
    frame of [f].  It is [f] itself when neither neighbour is at [f]; it is
    [f + 1] when [a1] is at [f] and [a2] is not at [f + 1]; it is [f - 1]
    when [a2], and not [a1], is at [f] and [a1] is not at [f - 1]; it is -1
    in the two remaining cases, where the neighbours are one frame apart.
    The result is -1 exactly when the frame so moved is the frame of a
    neighbour or is -1 itself: [f] is -2 and is moved forward, [f] is 0 and
    is moved back, or [f] is -1 and is not moved.  For a frame [f] of 1 or
    more, -1 is returned exactly in the two cases where the neighbours are
    one frame apart. *)
Theorem fixVerticalEnvActions_result (f : Frame) (a1 a2 : Action) :
  let r := fixVerticalEnvActions f a1 a2 in
  (r = -1 ∨ (r ≠ frame a1 ∧ r ≠ frame a2 ∧ f - 1 <= r <= f + 1))
  ∧ (frame a1 ≠ f -> frame a2 ≠ f -> r = f)
  ∧ (frame a1 = f -> frame a2 ≠ f + 1 -> r = f + 1)
  ∧ (frame a1 = f -> frame a2 = f + 1 -> r = -1)
  ∧ (frame a1 ≠ f -> frame a2 = f -> frame a1 ≠ f - 1 -> r = f - 1)
  ∧ (frame a1 = f - 1 -> frame a2 = f -> r = -1)
  ∧ (r = -1 ↔
       (frame a1 = f ∧ (frame a2 = f + 1 ∨ f = -2))
       ∨ (frame a1 ≠ f ∧ frame a2 = f ∧ (frame a1 = f - 1 ∨ f = 0))
       ∨ (frame a1 ≠ f ∧ frame a2 ≠ f ∧ f = -1))
  ∧ (1 <= f ->
       (r = -1 ↔
          (frame a1 = f ∧ frame a2 = f + 1) ∨ (frame a1 = f - 1 ∧ frame a2 = f))).
Proof.
  unfold fixVerticalEnvActions. cbn zeta.
  repeat split; repeat case_decide; try lia.
Qed.

(** Moving the frame can give -1 without any collision:
    [fixVerticalEnvActions 0 a1 a2] with [a1] at frame 3 and [a2] at
    frame 0. *)
Example fixVerticalEnvActions_moved_to_minus_one :
  fixVerticalEnvActions 0
    (mkAction 1 1 3 (makeFrom3Bytes CHANNEL_CC 0 64) 0 0)
    (mkAction 2 1 0 (makeFrom3Bytes CHANNEL_CC 0 64) 0 0) = -1.
Proof. reflexivity. Qed.

Lemma areComposite_true (a b : Action) :
  areComposite a b = true ↔
  getStatus (event a) = CHANNEL_NOTE_ON ∧ getStatus (event b) = CHANNEL_NOTE_OFF
  ∧ getNote (event a) = getNote (event b) ∧ channelId a = channelId b.
Proof.
  unfold areComposite. rewrite !andb_true_iff, !bool_decide_eq_true. tauto.
Qed.

(** X2. The partner that the scan of [consolidate(a1, i)] finds for the
    buffered action at position [i] lies strictly after it, although the
    scan starts at [i] itself: the action is a note-on, its partner a
    note-off of the same note on the same channel ([areComposite]), so an
    action is never its own partner. *)
Theorem partner_later_note_off (live : list Action) (i j : nat) :
  partner live i = Some j ->
  (i < j)%nat
  ∧ ∃ a b, live !! i = Some a ∧ live !! j = Some b
      ∧ getStatus (event a) = CHANNEL_NOTE_ON
      ∧ getStatus (event b) = CHANNEL_NOTE_OFF
      ∧ getNote (event a) = getNote (event b)
      ∧ channelId a = channelId b.
Proof.
  intros (a & b & Ha & Hb & Hle & Hab & _)%partner_Some.
  apply areComposite_true in Hab as (Hon & Hoff & Hnote & Hch).
  split.
  - destruct (decide (i = j)) as [->|]; [|lia]. congruence.
  - exists a, b. done.
Qed.

Lemma partner_later_note_off_witness :
  let on1 := mkAction 1 1 10 (makeFrom3Bytes CHANNEL_NOTE_ON 60 100) 0 0 in
  let on2 := mkAction 2 1 20 (makeFrom3Bytes CHANNEL_NOTE_ON 64 100) 0 0 in
  let off := mkAction 3 1 30 (makeFrom3Bytes CHANNEL_NOTE_OFF 60 0) 0 0 in
  partner [on1; on2; off] 0 = Some 2%nat ∧ (0 < 2)%nat.
Proof.
  intros on1 on2 off.
  assert (H : partner [on1; on2; off] 0 = Some 2%nat) by reflexivity.
  split; [exact H|].
  exact (proj1 (partner_later_note_off [on1; on2; off] 0 2 H)).
Defined.

(** ** The live buffer: [liveRec] and [consolidate] *)

Lemma consolidate_run (st : State) :
  consolidate st
  = Some (list_to_set (channelId <$> m_liveActions st),
          mkState (m_actions st
                   ++ imap (linkedAt (m_liveActions st) (length (m_liveActions st)))
                        (m_liveActions st))
            [] (lastActionId st) (channelHasActions st) (swaps st)).
Proof.
  unfold consolidate. munfold. cbn.
  rewrite consolidate_all_linkedAt, channelId_linkedAt. reflexivity.
Qed.

Lemma id_linkedAt (live : list Action) (m : nat) :
  id <$> imap (linkedAt live m) live = id <$> live.
Proof.
  apply list_eq. intros i. rewrite !list_lookup_fmap, list_lookup_imap.
  by destruct (live !! i).
Qed.


(** X4. On a well-formed state, [liveRec] fails on an event that is
    neither a note-on nor a note-off (the assert); on a note-on or note-off
    it returns, leaves the committed store, the channel flags and the swaps
    as they were, and appends to the live buffer one unlinked action with
    the next id; the state stays well formed. *)
Theorem liveRec_buffers (c : ID) (e : MidiEvent) (globalFrame : Frame) (st : State) :
  store_ok st ->
  (isNoteOnOff e = false -> liveRec c e globalFrame st = None)
  ∧ (isNoteOnOff e = true ->
     ∃ st', liveRec c e globalFrame st = Some (tt, st')
       ∧ m_actions st' = m_actions st
       ∧ channelHasActions st' = channelHasActions st
       ∧ swaps st' = swaps st
       ∧ m_liveActions st'
         = m_liveActions st ++ [mkAction (lastActionId st + 1) c globalFrame e 0 0]
       ∧ store_ok st').
Proof.
  intros Hok. split.
  - intros He. unfold liveRec. by rewrite He.
  - intros He. eexists. split; [by apply liveRec_run|].
    do 4 (split; [reflexivity|]).
    apply store_ok_alt in Hok as (H0 & Hall & Hnd).
    apply store_ok_alt. simpl. rewrite fmap_app, !app_assoc. split; [lia|]. split.
    + apply Forall_app. split.
      * eapply Forall_impl; [exact Hall|]. simpl. lia.
      * repeat constructor; simpl; lia.
    + apply (NoDup_ids_fresh (lastActionId st)); [done| | |].
      * eapply Forall_impl; [exact Hall|]. simpl. lia.
      * apply NoDup_singleton.
      * repeat constructor; simpl; lia.
Qed.

Lemma liveRec_buffers_witness :
  store_ok envelopeState
  ∧ liveRec 3 (makeFrom3Bytes CHANNEL_CC 0 64) 77 envelopeState = None
  ∧ ∃ st', liveRec 3 (makeFrom3Bytes CHANNEL_NOTE_ON 60 100) 77 envelopeState
           = Some (tt, st')
      ∧ store_ok st'.
Proof.
  assert (H : store_ok envelopeState) by store_ok_closed.
  split; [exact H|]. split.
  - exact (proj1 (liveRec_buffers 3 (makeFrom3Bytes CHANNEL_CC 0 64) 77
                    envelopeState H) eq_refl).
  - destruct (proj2 (liveRec_buffers 3 (makeFrom3Bytes CHANNEL_NOTE_ON 60 100) 77
                       envelopeState H) eq_refl)
      as (st' & Hrun & _ & _ & _ & _ & Hok).
    exists st'. split; [exact Hrun|exact Hok].
Defined.

(** X5. On a well-formed state [consolidate()] returns, empties the live
    buffer and commits the buffered actions under the ids they were
    buffered with, after the stored ones: the ids in use are the same and
    the state stays well formed. *)
Theorem consolidate_keeps_store_ok (st : State) :
  store_ok st ->
  ∃ s st', consolidate st = Some (s, st')
    ∧ m_liveActions st' = []
    ∧ id <$> m_actions st' = id <$> (m_actions st ++ m_liveActions st)
    ∧ lastActionId st' = lastActionId st
    ∧ store_ok st'.
Proof.
  intros Hok. eexists _, _. split; [apply consolidate_run|].
  split; [done|].
  assert (Hids : id <$> (m_actions st ++ imap (linkedAt (m_liveActions st)
                   (length (m_liveActions st))) (m_liveActions st))
                 = id <$> (m_actions st ++ m_liveActions st)).
  { by rewrite !fmap_app, id_linkedAt. }
  split; [exact Hids|]. split; [done|].
  apply store_ok_alt in Hok. apply store_ok_alt. simpl.
  rewrite Hids, fmap_app, app_nil_r. tauto.
Qed.

Lemma consolidate_keeps_store_ok_witness :
  let on1 := mkAction 6 1 10 (makeFrom3Bytes CHANNEL_NOTE_ON 60 100) 0 0 in
  let off := mkAction 7 1 30 (makeFrom3Bytes CHANNEL_NOTE_OFF 60 0) 0 0 in
  let st := mkState (m_actions envelopeState) [on1; off] 7
              (channelHasActions envelopeState) [] in
  store_ok st
  ∧ ∃ s st', consolidate st = Some (s, st') ∧ m_liveActions st' = [] ∧ store_ok st'.
Proof.
  intros on1 off st.
  assert (H : store_ok st) by store_ok_closed.
  split; [exact H|].
  destruct (consolidate_keeps_store_ok st H) as (s & st' & Hrun & Hlive & _ & _ & Hok).
  exists s, st'. split; [exact Hrun|]. split; [exact Hlive|exact Hok].
Defined.

(** ** Notes: recording, deleting, editing *)

Lemma rec_pair_run (c : ID) (f1 f2 : Frame) (e1 e2 : MidiEvent) (st : State) :
  rec_pair c f1 f2 e1 e2 st
  = Some (tt, mkState
      (m_actions st ++ [ mkAction (lastActionId st + 1) c f1 e1 0 (lastActionId st + 2);
                         mkAction (lastActionId st + 2) c f2 e2 (lastActionId st + 1) 0 ])
      (m_liveActions st) (lastActionId st + 2)
      (<[c := true]> (channelHasActions st)) (swaps st)).
Proof.
  unfold rec_pair. munfold. simpl.
  replace (lastActionId st + 1 + 1) with (lastActionId st + 2) by lia. reflexivity.
Qed.

Lemma recordMidiAction_run (size : Frame) (c : ID) (note velocity : Z)
    (f1 f2 framesInLoop : Frame) (st : State) :
  let g := noteFrames size f1 f2 framesInLoop in
  recordMidiAction size c note velocity f1 f2 framesInLoop st
  = Some (tt, mkState
      (m_actions st
       ++ [ mkAction (lastActionId st + 1) c g.1
              (makeFrom3Bytes CHANNEL_NOTE_ON note velocity) 0 (lastActionId st + 2);
            mkAction (lastActionId st + 2) c g.2
              (makeFrom3Bytes CHANNEL_NOTE_OFF note velocity) (lastActionId st + 1) 0 ])
      (m_liveActions st) (lastActionId st + 2)
      (<[c := true]> (channelHasActions st)) (swaps st)).
Proof.
  intros g. unfold recordMidiAction. fold (noteFrames size f1 f2 framesInLoop).
  fold g. destruct g as [g1 g2]. apply rec_pair_run.
Qed.

Lemma deleteAction_pair_run (c i n : ID) (st : State) :
  let l := filter (λ x, id x ≠ i ∧ id x ≠ n) (m_actions st) in
  deleteAction_pair c i n st
  = Some (tt, mkState l (m_liveActions st) (lastActionId st)
      (<[c := bool_decide (Exists (Actions.ofChannelAndType c None) l)]>
         (channelHasActions st))
      (swaps st ++ [HARD])).
Proof. reflexivity. Qed.

(** The successor of a note-on just stored with its note-off. *)
Lemma nextOf_new_pair (l : list Action) (aOn aOff : Action) (n : Z) :
  Forall (λ a, id a <= n) l ->
  n < id aOn -> n < id aOff -> id aOn ≠ id aOff -> nextId aOn = id aOff ->
  0 <= n ->
  Actions.nextOf (l ++ [aOn; aOff]) aOn = Some aOff.
Proof.
  intros Hle H1 H2 Hne Hnext H0.
  unfold Actions.nextOf. rewrite decide_False by lia.
  rewrite findAction_app_fresh.
  - rewrite findAction_cons, decide_False by lia.
    rewrite findAction_cons, decide_True by done. done.
  - eapply Forall_impl; [exact Hle|]. simpl. lia.
Qed.

(** Removing a pair just stored gives the store back. *)
Lemma filter_new_pair (l : list Action) (aOn aOff : Action) (n : Z) :
  Forall (λ a, id a <= n) l -> n < id aOn -> n < id aOff ->
  filter (λ x, id x ≠ id aOn ∧ id x ≠ id aOff) (l ++ [aOn; aOff]) = l.
Proof.
  intros Hle H1 H2. rewrite filter_app.
  rewrite filter_cons_False by tauto.
  rewrite filter_cons_False by tauto.
  rewrite filter_nil, app_nil_r.
  apply filter_all. eapply Forall_impl; [exact Hle|]. simpl. lia.
Qed.









(** ** Sample triggers *)

(** X10. In single-press mode [recordSampleAction] stores a linked
    note-on/note-off pair with note and velocity 0, at [f1] and at [f2]
    (at [f1 + G_DEFAULT_ACTION_SIZE] when [f2] is 0), whatever the trigger
    type.  It is given no loop length and shifts nothing: it does what
    [recordMidiAction] does for note 0, velocity 0 and a loop of
    [framesInLoop] frames exactly when the note-off lies within the loop. *)
Theorem recordSampleAction_singlePress (size : Frame) (c : ID) (type : Status)
    (f1 f2 framesInLoop : Frame) (st : State) :
  let f2e := if decide (f2 = 0) then f1 + size else f2 in
  ∃ st' aOn aOff,
    recordSampleAction size true c type f1 f2 st = Some (tt, st')
    ∧ m_actions st' = m_actions st ++ [aOn; aOff]
    ∧ frame aOn = f1 ∧ frame aOff = f2e
    ∧ event aOn = makeFrom3Bytes CHANNEL_NOTE_ON 0 0
    ∧ event aOff = makeFrom3Bytes CHANNEL_NOTE_OFF 0 0
    ∧ nextId aOn = id aOff ∧ prevId aOff = id aOn
    ∧ (recordSampleAction size true c type f1 f2 st
       = recordMidiAction size c 0 0 f1 f2 framesInLoop st
       ↔ f2e <= framesInLoop).
Proof.
  intros f2e. unfold recordSampleAction. fold f2e.
  rewrite rec_pair_run. eexists _, _, _. split; [reflexivity|]. proj_simpl.
  split; [reflexivity|]. do 6 (split; [reflexivity|]).
  rewrite recordMidiAction_run. unfold noteFrames. fold f2e. cbn zeta.
  split.
  - intros H. injection H as H. apply app_inv_head in H.
    case_decide; [|lia]. cbn [fst snd] in H. injection H as H1 H2. lia.
  - intros Hle. by rewrite decide_False by lia.
Qed.

(** X11. Round trip: when the ids in use are allocated, deleting with
    [deleteSampleAction] the first action that [recordSampleAction] has
    just stored gives back the committed store, in either mode: in
    single-press mode the note-off goes with its note-on, otherwise the
    single trigger is removed.  The ids stay spent (two or one). *)
Theorem recordSampleAction_deleteSampleAction (size : Frame) (singlePress : bool)
    (c : ID) (type : Status) (f1 f2 : Frame) (st : State) :
  ids_allocated st ->
  let recorded :=
    if singlePress
    then mkAction (lastActionId st + 1) c f1 (makeFrom3Bytes CHANNEL_NOTE_ON 0 0)
           0 (lastActionId st + 2)
    else mkAction (lastActionId st + 1) c f1 (makeFrom3Bytes type 0 0) 0 0 in
  (recordSampleAction size singlePress c type f1 f2;;
   deleteSampleAction c recorded) st
  = Some (tt, mkState (m_actions st) (m_liveActions st)
       (lastActionId st + (if singlePress then 2 else 1))
       (<[c := bool_decide (onChannel c (m_actions st) ≠ [])]> (channelHasActions st))
       (swaps st ++ [HARD])).
Proof.
  intros Halloc.
  pose proof (ids_allocated_le st Halloc) as Hle. destruct Halloc as [H0 _].
  destruct singlePress; cbn zeta.
  - unfold recordSampleAction. erewrite bind_Some by apply rec_pair_run.
    unfold deleteSampleAction. erewrite bind_Some by reflexivity. proj_simpl.
    set (f2e := if decide (f2 = 0) then f1 + size else f2).
    set (aOn := mkAction _ c f1 _ 0 _). set (aOff := mkAction _ c f2e _ _ 0).
    rewrite (nextOf_new_pair _ aOn aOff (lastActionId st)) by (done || simpl; lia).
    rewrite deleteAction_pair_run. cbn zeta. proj_simpl.
    rewrite (filter_new_pair _ aOn aOff (lastActionId st)) by (done || simpl; lia).
    by rewrite hasActions_onChannel, insert_insert_eq.
  - unfold recordSampleAction.
    erewrite bind_Some.
    2:{ erewrite bind_Some by apply rec_run. reflexivity. }
    unfold deleteSampleAction. erewrite bind_Some by reflexivity. proj_simpl.
    unfold Actions.nextOf. rewrite decide_True by done.
    rewrite deleteAction_run. cbn zeta. proj_simpl.
    rewrite filter_app.
    rewrite filter_cons_False by (simpl; lia).
    rewrite filter_nil, app_nil_r.
    rewrite filter_all by (eapply Forall_impl; [exact Hle|]; simpl; lia).
    by rewrite hasActions_onChannel, insert_insert_eq.
Qed.

Lemma recordSampleAction_deleteSampleAction_witness :
  ids_allocated envelopeState
  ∧ (λ r, m_actions r.2) <$>
      (recordSampleAction 100 true 3 CHANNEL_NOTE_ON 10 0;;
       deleteSampleAction 3
         (mkAction 6 3 10 (makeFrom3Bytes CHANNEL_NOTE_ON 0 0) 0 7)) envelopeState
    = Some (m_actions envelopeState).
Proof.
  assert (H1 : ids_allocated envelopeState) by (unfold ids_allocated; decide_closed).
  split; [exact H1|].
  exact (f_equal (fmap (λ r : unit * State, m_actions r.2))
           (recordSampleAction_deleteSampleAction 100 true 3 CHANNEL_NOTE_ON 10 0
              envelopeState H1)).
Defined.

(** ** Envelopes: invariants *)

Lemma firstEnvelopePoint_run (G : Z) (c : ID) (f : Frame) (value : Z)
    (lastFrameInLoop : Frame) (st : State) :
  ids_allocated st -> 0 <= value <= G -> envelopeOf c (m_actions st) = [] ->
  recordEnvelopeAction G c f value lastFrameInLoop st
  = Some (tt, mkState
      (m_actions st ++ [ envelopeFirst G c (lastActionId st);
                         envelopePoint c f value (lastActionId st);
                         envelopeLast G c lastFrameInLoop (lastActionId st) ])
      (m_liveActions st) (lastActionId st + 3)
      (<[c := true]> (channelHasActions st)) (swaps st)).
Proof.
  intros Halloc Hvalue Henv.
  pose proof (ids_allocated_le st Halloc) as Hle.
  unfold recordEnvelopeAction.
  rewrite bool_decide_eq_true_2 by lia.
  erewrite bind_Some by reflexivity.
  erewrite bind_Some by apply hasActions_run.
  rewrite hasActions_envelope, Henv, bool_decide_eq_false_2 by (intros H; by apply H).
  cbn [negb]. by rewrite recordFirstEnvelopeAction_run.
Qed.





(** ** Envelopes: the first point, then a deletion *)

Lemma firstEnvelope_links (G : Z) (c : ID) (f : Frame) (value : Z)
    (lastFrameInLoop : Frame) (st : State) :
  ids_allocated st ->
  let first := envelopeFirst G c (lastActionId st) in
  let point := envelopePoint c f value (lastActionId st) in
  let last := envelopeLast G c lastFrameInLoop (lastActionId st) in
  let l := m_actions st ++ [first; point; last] in
  Actions.prevOf l first = Some last
  ∧ Actions.nextOf l first = Some point
  ∧ Actions.prevOf l point = Some first
  ∧ Actions.nextOf l point = Some last
  ∧ Actions.prevOf l last = Some point
  ∧ Actions.nextOf l last = Some first.
Proof.
  intros Halloc first point last l.
  pose proof (ids_allocated_le st Halloc) as Hle. destruct Halloc as [H0 _].
  assert (Hfind : ∀ i, lastActionId st < i ->
            Actions.findAction l i = Actions.findAction [first; point; last] i).
  { intros i Hi. apply findAction_app_fresh.
    eapply Forall_impl; [exact Hle|]. simpl. lia. }
  unfold Actions.prevOf, Actions.nextOf.
  subst first point last. unfold envelopeFirst, envelopePoint, envelopeLast.
  proj_simpl.
  rewrite !decide_False by lia. rewrite !Hfind by lia.
  unfold envelopeFirst, envelopePoint, envelopeLast.
  set (i1 := lastActionId st + 1). set (i2 := lastActionId st + 2).
  set (i3 := lastActionId st + 3).
  assert (i1 < i2 < i3) by (unfold i1, i2, i3; lia). clearbody i1 i2 i3.
  repeat split; repeat find_step; reflexivity.
Qed.

(** Clearing the envelope of the channel takes the three actions away. *)
Lemma firstEnvelope_cleared (G : Z) (c : ID) (f : Frame) (value : Z)
    (lastFrameInLoop : Frame) (st : State) :
  envelopeOf c (m_actions st) = [] ->
  clearActions c CHANNEL_CC
    (mkState
       (m_actions st ++ [ envelopeFirst G c (lastActionId st);
                          envelopePoint c f value (lastActionId st);
                          envelopeLast G c lastFrameInLoop (lastActionId st) ])
       (m_liveActions st) (lastActionId st + 3)
       (<[c := true]> (channelHasActions st)) (swaps st))
  = Some (tt, mkState (m_actions st) (m_liveActions st) (lastActionId st + 3)
       (<[c := bool_decide (onChannel c (m_actions st) ≠ [])]> (channelHasActions st))
       (swaps st ++ [HARD])).
Proof.
  intros Henv. rewrite clearActions_run. cbn zeta. proj_simpl.
  assert (Hf : filter (λ x, ¬ (channelId x = c ∧ getStatus (event x) = CHANNEL_CC))
                 (m_actions st ++ [ envelopeFirst G c (lastActionId st);
                                    envelopePoint c f value (lastActionId st);
                                    envelopeLast G c lastFrameInLoop (lastActionId st) ])
               = m_actions st).
  { rewrite filter_app. rewrite !filter_cons_False by (simpl; tauto).
    rewrite filter_nil, app_nil_r. apply filter_all.
    apply filter_nil_Forall in Henv. exact Henv. }
  rewrite Hf, hasActions_onChannel. by rewrite insert_insert_eq.
Qed.

(** Deleting an action of the first envelope that is a boundary action. *)
Lemma firstEnvelope_clear_via (G : Z) (c : ID) (f : Frame) (value : Z)
    (lastFrameInLoop : Frame) (st : State) (a a1 a3 : Action) :
  ids_allocated st -> 0 <= value <= G -> envelopeOf c (m_actions st) = [] ->
  let l := m_actions st ++ [ envelopeFirst G c (lastActionId st);
                             envelopePoint c f value (lastActionId st);
                             envelopeLast G c lastFrameInLoop (lastActionId st) ] in
  Actions.prevOf l a = Some a1 -> Actions.nextOf l a = Some a3 ->
  frame a1 > frame a ∨ frame a3 < frame a ->
  getStatus (event a) = CHANNEL_CC ->
  (recordEnvelopeAction G c f value lastFrameInLoop;; deleteEnvelopeAction c a) st
  = Some (tt, mkState (m_actions st) (m_liveActions st) (lastActionId st + 3)
       (<[c := bool_decide (onChannel c (m_actions st) ≠ [])]> (channelHasActions st))
       (swaps st ++ [HARD])).
Proof.
  intros Halloc Hvalue Henv l Hp Hn Hb Hcc.
  erewrite bind_Some by (by apply firstEnvelopePoint_run).
  unfold deleteEnvelopeAction.
  erewrite bind_Some by (apply isBoundaryEnvelopeAction_run; [exact Hp|exact Hn]).
  rewrite (proj2 (orb_true_iff _ _)) by (rewrite !bool_decide_eq_true; lia).
  rewrite Hcc. by apply firstEnvelope_cleared.
Qed.



(** X15. On a channel without envelope actions (ids allocated, value in
    range), recording a first envelope point at [f] and then deleting that
    point: when [f] lies within the loop, [0 <= f <= lastFrameInLoop], the
    point is taken out and the two boundary actions are left linked to each
    other, each being the [prev] and the [next] of the other; when [f] lies
    outside the loop the point is itself a boundary action, and deleting it
    removes the two boundaries with it and gives back the store as it
    was. *)
Theorem firstEnvelope_delete_point (G : Z) (c : ID) (f : Frame) (value : Z)
    (lastFrameInLoop : Frame) (st : State) :
  ids_allocated st -> 0 <= value <= G -> envelopeOf c (m_actions st) = [] ->
  let i1 := lastActionId st + 1 in
  let i3 := lastActionId st + 3 in
  let e1 := makeFrom3Bytes CHANNEL_CC 0 G in
  (recordEnvelopeAction G c f value lastFrameInLoop;;
   deleteEnvelopeAction c (envelopePoint c f value (lastActionId st))) st
  = Some (tt,
      if decide (0 <= f <= lastFrameInLoop) then
        mkState (m_actions st ++ [ mkAction i1 c 0 e1 i3 i3;
                                   mkAction i3 c lastFrameInLoop e1 i1 i1 ])
          (m_liveActions st) i3 (<[c := true]> (channelHasActions st))
          (swaps st ++ [HARD])
      else
        mkState (m_actions st) (m_liveActions st) i3
          (<[c := bool_decide (onChannel c (m_actions st) ≠ [])]> (channelHasActions st))
          (swaps st ++ [HARD])).
Proof.
  intros Halloc Hvalue Henv. cbn zeta.
  destruct (firstEnvelope_links G c f value lastFrameInLoop st Halloc)
    as (Hp1 & Hn1 & Hp & Hn & Hp3 & Hn3).
  case_decide as Hf.
  2:{ eapply firstEnvelope_clear_via; [done|done|done|exact Hp|exact Hn| |done].
      simpl. lia. }
  erewrite bind_Some by (by apply firstEnvelopePoint_run).
  unfold deleteEnvelopeAction.
  erewrite bind_Some by (apply isBoundaryEnvelopeAction_run; [exact Hp|exact Hn]).
  rewrite (proj2 (orb_false_iff _ _)) by (rewrite !bool_decide_eq_false; simpl; lia).
  erewrite bind_Some by reflexivity. cbn [m_actions].
  rewrite Hp. erewrite bind_Some by reflexivity.
  rewrite Hp1. erewrite bind_Some by reflexivity.
  rewrite Hn. erewrite bind_Some by reflexivity.
  rewrite Hn3. erewrite bind_Some by reflexivity.
  erewrite bind_Some by apply updateSiblings_run.
  erewrite bind_Some by apply updateSiblings_run.
  rewrite deleteAction_run. cbn zeta.
  unfold envelopeFirst, envelopePoint, envelopeLast. proj_simpl.
  pose proof (ids_allocated_le st Halloc) as Hle. destruct Halloc as [H0 _].
  assert (Hl : ∀ i g, lastActionId st < i ->
            Actions.alterById i g (m_actions st) = m_actions st).
  { intros i g Hi. apply alterById_fresh. eapply Forall_impl; [exact Hle|].
    simpl. intros a Ha. lia. }
  set (i1 := lastActionId st + 1). set (i2 := lastActionId st + 2).
  set (i3 := lastActionId st + 3).
  assert (lastActionId st < i1 < i2 ∧ i2 < i3) as Hlt by (unfold i1, i2, i3; lia).
  clearbody i1 i2 i3.
  rewrite !alterById_app, !Hl by (proj_simpl; lia).
  repeat (alter_step; proj_simpl).
  rewrite filter_app.
  rewrite filter_cons_True by (simpl; lia).
  rewrite filter_cons_False by (simpl; lia).
  rewrite filter_cons_True by (simpl; lia).
  rewrite filter_nil.
  rewrite filter_all by (eapply Forall_impl; [exact Hle|]; simpl; lia).
  rewrite insert_insert_eq.
  rewrite (bool_decide_eq_true_2 (Exists _ _)).
  2:{ apply Exists_app. right. apply Exists_cons. left. split; done. }
  reflexivity.
Qed.

Lemma firstEnvelope_delete_point_witness :
  ids_allocated emptyState ∧ 0 <= 64 <= 127
  ∧ envelopeOf 1 (m_actions emptyState) = []
  ∧ (λ r, m_actions r.2) <$>
      (recordEnvelopeAction 127 1 500 64 1000;;
       deleteEnvelopeAction 1 (envelopePoint 1 500 64 0)) emptyState
    = Some [ mkAction 1 1 0 (makeFrom3Bytes CHANNEL_CC 0 127) 3 3;
             mkAction 3 1 1000 (makeFrom3Bytes CHANNEL_CC 0 127) 1 1 ]
  ∧ (λ r, m_actions r.2) <$>
      (recordEnvelopeAction 127 1 1500 64 1000;;
       deleteEnvelopeAction 1 (envelopePoint 1 1500 64 0)) emptyState
    = Some [].
Proof.
  assert (H1 : ids_allocated emptyState) by (unfold ids_allocated; decide_closed).
  assert (H2 : 0 <= 64 <= 127) by lia.
  assert (H3 : envelopeOf 1 (m_actions emptyState) = []) by reflexivity.
  split; [exact H1|]. split; [exact H2|]. split; [exact H3|]. split.
  - exact (f_equal (fmap (λ r : unit * State, m_actions r.2))
             (firstEnvelope_delete_point 127 1 500 64 1000 emptyState H1 H2 H3)).
  - exact (f_equal (fmap (λ r : unit * State, m_actions r.2))
             (firstEnvelope_delete_point 127 1 1500 64 1000 emptyState H1 H2 H3)).
Defined.

(** ** Envelopes: deleting and updating *)




(** X17. An action whose [prev] or [next] pointer does not resolve in the
    store (a link of 0, or one that names no stored action) makes
    [isBoundaryEnvelopeAction] fail on its assert, and with it
    [deleteEnvelopeAction] and [updateEnvelopeAction], which start by that
    test: the store is left as it was. *)
Theorem envelope_edits_need_links (G : Z) (c : ID) (a : Action) (f : Frame)
    (value : Z) (lastFrameInLoop : Frame) (st : State) :
  Actions.prevOf (m_actions st) a = None ∨ Actions.nextOf (m_actions st) a = None ->
  isBoundaryEnvelopeAction a st = None
  ∧ deleteEnvelopeAction c a st = None
  ∧ updateEnvelopeAction G c a f value lastFrameInLoop st = None.
Proof.
  intros H.
  assert (Hb : isBoundaryEnvelopeAction a st = None).
  { unfold isBoundaryEnvelopeAction. erewrite bind_Some by reflexivity.
    destruct H as [H|H]; rewrite H.
    - by apply bind_None.
    - destruct (Actions.prevOf (m_actions st) a); [|by apply bind_None].
      erewrite bind_Some by reflexivity. by apply bind_None. }
  split; [done|]. split.
  - unfold deleteEnvelopeAction. by apply bind_None.
  - unfold updateEnvelopeAction. by apply bind_None.
Qed.

Lemma envelope_edits_need_links_witness :
  let a := mkAction 4 3 10 (makeFrom3Bytes CHANNEL_NOTE_ON 60 100) 0 5 in
  Actions.prevOf (m_actions envelopeState) a = None
  ∧ deleteEnvelopeAction 3 a envelopeState = None.
Proof.
  intros a.
  assert (H : Actions.prevOf (m_actions envelopeState) a = None) by reflexivity.
  split; [exact H|].
  exact (proj1 (proj2 (envelope_edits_need_links 127 3 a 0 0 1000 envelopeState
                         (or_introl H)))).
Defined.







(** ** [cloneActions]: invariants and failure *)

(** X19. On a well-formed state with consistent links, where the links of
    the source channel stay on the source channel, [cloneActions] returns
    and leaves a well-formed state with consistent links: the clones are
    linked among themselves, in both directions, as their sources are.  One
    id is allocated and one action stored per source action; the live
    buffer is untouched. *)
Theorem cloneActions_keeps_invariants (src dst : ID) (st : State) :
  store_ok st -> links_consistent (m_actions st) ->
  links_closed (onChannel src (m_actions st)) ->
  ∃ st',
    cloneActions src dst st
    = Some (bool_decide (onChannel src (m_actions st) ≠ []), st')
    ∧ store_ok st'
    ∧ links_consistent (m_actions st')
    ∧ m_liveActions st' = m_liveActions st
    ∧ lastActionId st'
      = lastActionId st + Z.of_nat (length (onChannel src (m_actions st)))
    ∧ length (m_actions st')
      = (length (m_actions st) + length (onChannel src (m_actions st)))%nat.
Proof.
  intros Hok Hlinks Hclosed.
  pose proof (store_ok_NoDup st Hok) as Hnd0.
  pose proof Hok as [Halloc _]. pose proof Halloc as [H0 _].
  pose proof (ids_allocated_le st Halloc) as Hle.
  set (srcs := onChannel src (m_actions st)) in *.
  assert (Hnd : NoDup (id <$> srcs)) by (by apply onChannel_NoDup).
  set (σ := λ i : Z, default 0 (cloneIdOf (lastActionId st) srcs i)).
  eexists. split; [by apply cloneActions_run|]. proj_simpl. fold srcs σ.
  assert (Hσ : ∀ j a, srcs !! j = Some a ->
            σ (id a) = lastActionId st + 1 + Z.of_nat j).
  { intros j a Hj. unfold σ. by rewrite (cloneIdOf_lookup _ _ _ _ Hnd Hj). }
  assert (Hsub : ∀ a, a ∈ srcs -> a ∈ m_actions st).
  { intros a Ha. unfold srcs, onChannel in Ha.
    by apply list_elem_of_filter in Ha as [_ ?]. }
  assert (Hpos : ∀ a, a ∈ m_actions st -> 0 < id a).
  { destruct Halloc as [_ Hall]. apply Forall_app in Hall as [Hall _].
    rewrite Forall_forall in Hall. intros a Ha. specialize (Hall a Ha). lia. }
  split; [|split; [|split; [done|split; [done|]]]].
  - apply store_ok_append; [done| | |lia].
    + rewrite <- list_fmap_compose. apply NoDup_alt. intros i j z Hi Hj.
      rewrite list_lookup_fmap in Hi, Hj.
      destruct (srcs !! i) as [a|] eqn:Ha; [|done].
      destruct (srcs !! j) as [b|] eqn:Hb; [|done].
      simpl in Hi, Hj. rewrite (Hσ i a Ha) in Hi. rewrite (Hσ j b Hb) in Hj.
      injection Hi as Hi. injection Hj as Hj. lia.
    + apply Forall_fmap, Forall_forall. intros a [j Hj]%list_elem_of_lookup_1.
      simpl. rewrite (Hσ j a Hj). apply lookup_lt_Some in Hj. lia.
  - apply links_consistent_app; [done|].
    unfold links_consistent in *. rewrite Forall_forall in Hlinks.
    unfold links_closed in Hclosed. rewrite Forall_forall in Hclosed.
    apply Forall_fmap, Forall_forall. intros x Hx. simpl.
    destruct (Hlinks x (Hsub x Hx)) as [Hn Hp].
    destruct (Hclosed x Hx) as [Hcp Hcn].
    pose proof (Hpos x (Hsub x Hx)) as Hxpos.
    split.
    + destruct (decide (nextId x = 0)) as [?|Hn0]; [by left|right].
      destruct Hn as [?|(y & Hy & Hyid & Hyp)]; [done|].
      destruct Hcn as [?|Hcn]; [done|].
      apply list_elem_of_fmap in Hcn as (y' & Hy'id & Hy').
      assert (y' = y) as ->.
      { apply (ids_unique_eq (m_actions st)); [done|by apply Hsub|done|congruence]. }
      exists (cloneOf σ dst y). split; [by apply list_elem_of_fmap_2|].
      simpl. rewrite Hyid. split; [done|].
      rewrite decide_False by lia. by rewrite Hyp.
    + destruct (decide (prevId x = 0)) as [?|Hp0]; [by left|right].
      destruct Hp as [?|(y & Hy & Hyid & Hyn)]; [done|].
      destruct Hcp as [?|Hcp]; [done|].
      apply list_elem_of_fmap in Hcp as (y' & Hy'id & Hy').
      assert (y' = y) as ->.
      { apply (ids_unique_eq (m_actions st)); [done|by apply Hsub|done|congruence]. }
      exists (cloneOf σ dst y). split; [by apply list_elem_of_fmap_2|].
      simpl. rewrite Hyid. split; [done|].
      rewrite decide_False by lia. by rewrite Hyn.
  - by rewrite length_app, length_fmap.
Qed.

Lemma cloneActions_keeps_invariants_witness :
  store_ok envelopeState ∧ links_consistent (m_actions envelopeState)
  ∧ links_closed (onChannel 1 (m_actions envelopeState))
  ∧ ∃ st', cloneActions 1 2 envelopeState = Some (true, st')
      ∧ store_ok st' ∧ links_consistent (m_actions st')
      ∧ length (m_actions st') = 8%nat.
Proof.
  assert (H1 : store_ok envelopeState) by store_ok_closed.
  assert (H2 : links_consistent (m_actions envelopeState)) by links_closed_store.
  assert (H3 : links_closed (onChannel 1 (m_actions envelopeState)))
    by (unfold links_closed; decide_closed).
  split; [exact H1|]. split; [exact H2|]. split; [exact H3|].
  destruct (cloneActions_keeps_invariants 1 2 envelopeState H1 H2 H3)
    as (st' & Hrun & Hok & Hl & _ & _ & Hlen).
  exists st'. split; [exact Hrun|]. split; [exact Hok|]. split; [exact Hl|exact Hlen].
Defined.

Lemma mapM_None_elem {A B : Type} (g : A -> option B) (l : list A) (x : A) :
  x ∈ l -> g x = None -> mapM g l = None.
Proof.
  intros Hx Hg. apply mapM_None. apply Exists_exists. by exists x.
Qed.

(** X20. [cloneActions] fails, and stores nothing, as soon as one action
    of the source channel has a non-zero [prevId] or [nextId] that is not
    the id of an action of the source channel: the second loop looks the
    link up with [map.at], and the map holds the ids of the source channel
    only. *)
Theorem cloneActions_dangling_link (src dst : ID) (st : State) (a : Action) :
  a ∈ onChannel src (m_actions st) ->
  (prevId a ≠ 0 ∧ prevId a ∉ id <$> onChannel src (m_actions st))
  ∨ (nextId a ≠ 0 ∧ nextId a ∉ id <$> onChannel src (m_actions st)) ->
  cloneActions src dst st = None.
Proof.
  intros Ha Hdangling.
  destruct (cloneActions_visit_spec src dst (m_actions st) false [] ∅ st)
    as (map & Heq & Hmap).
  unfold cloneActions. erewrite bind_Some by reflexivity.
  erewrite bind_Some by exact Heq. cbn [app].
  set (srcs := onChannel src (m_actions st)) in *.
  assert (Hmiss : ∀ i, i ∉ id <$> srcs -> map !! i = None).
  { intros i Hi. rewrite Hmap, lookup_empty. unfold cloneIdOf.
    destruct (list_find _ srcs) as [[j x]|] eqn:Hfind; [|done].
    apply list_find_Some in Hfind as (Hj & Hid & _). exfalso. apply Hi.
    apply list_elem_of_fmap. exists x. split; [done|by eapply list_elem_of_lookup_2]. }
  apply list_elem_of_lookup_1 in Ha as [j Hj].
  rewrite (mapM_None_elem _ _
             (setChannelId dst (setId (lastActionId st + 1 + Z.of_nat j) a))).
  - done.
  - apply (list_elem_of_lookup_2 _ j). by rewrite list_lookup_imap, Hj.
  - unfold cloneActions_relink. proj_simpl.
    destruct Hdangling as [[Hp Hpm]|[Hn Hnm]].
    + rewrite decide_True by done. by rewrite (Hmiss _ Hpm).
    + destruct (decide (prevId a ≠ 0)).
      * destruct (map !! prevId a); [|done]. simpl.
        rewrite decide_True by done. by rewrite (Hmiss _ Hnm).
      * simpl. rewrite decide_True by done. by rewrite (Hmiss _ Hnm).
Qed.

Lemma cloneActions_dangling_link_witness :
  let a := mkAction 1 1 10 (makeFrom3Bytes CHANNEL_NOTE_ON 60 100) 0 2 in
  let b := mkAction 2 2 50 (makeFrom3Bytes CHANNEL_NOTE_OFF 60 100) 1 0 in
  let st := mkState [a; b] [] 2 ∅ [] in
  a ∈ onChannel 1 (m_actions st)
  ∧ (nextId a ≠ 0 ∧ nextId a ∉ id <$> onChannel 1 (m_actions st))
  ∧ cloneActions 1 3 st = None.
Proof.
  intros a b st.
  assert (H1 : a ∈ onChannel 1 (m_actions st)) by decide_closed.
  assert (H2 : nextId a ≠ 0 ∧ nextId a ∉ id <$> onChannel 1 (m_actions st))
    by decide_closed.
  split; [exact H1|]. split; [exact H2|].
  exact (cloneActions_dangling_link 1 3 st a H1 (or_intror H2)).
Defined.

(** ** Rescaling: what is kept, the collapse rule, undefined ratios *)
















(** X21. The collapse rule of [updateBpm].  With [f'] the rescaled frame
    (the product cut toward zero), the frame stored lies between [f'] and
    [f' + 6], and differs from [f'] only by the remainder of
    [quantizerStep] by [f'].  A rescaled frame that falls at most 6 frames
    short of the quantizer step, and past half of it, lands exactly on the
    step (44099 goes to 44100).  A rescaled frame of which the step is a
    multiple is kept, and so is every rescaled frame beyond a step larger
    than 6: the rule never collapses a frame onto the second or a later
    multiple of the step. *)
Theorem updateBpm_frame_collapse (ratio : F32.float) (quantizerStep : Z)
    (old r : Frame) :
  updateBpm_frame ratio quantizerStep old = Some r ->
  ∃ f', F32.to_int (F32.mul (F32.of_int old) ratio) = Some f'
    ∧ f' <= r <= f' + 6
    ∧ (r ≠ f' -> f' ≠ 0 ∧ r = f' + Z.rem quantizerStep f')
    ∧ (0 < quantizerStep - f' <= 6 -> quantizerStep < 2 * f' -> r = quantizerStep)
    ∧ (Z.rem quantizerStep f' = 0 -> r = f')
    ∧ (6 < quantizerStep < f' -> r = f').
Proof.
  unfold updateBpm_frame.
  destruct (F32.to_int _) as [f'|]; [|done]. simpl. intros Hr.
  exists f'. split; [done|].
  assert (Hsnap : 0 < quantizerStep - f' <= 6 -> quantizerStep < 2 * f' ->
                  Z.rem quantizerStep f' = quantizerStep - f').
  { intros H1 H2. rewrite Z.rem_mod_nonneg by lia.
    symmetry. apply (Z.mod_unique_pos _ _ 1); lia. }
  assert (Hfar : 6 < quantizerStep < f' -> Z.rem quantizerStep f' = quantizerStep).
  { intros H1. apply Z.rem_small. lia. }
  repeat case_decide; injection Hr as <-; (split; [lia|]);
    (split; [lia|]); (split; [intros H1 H2; specialize (Hsnap H1 H2); lia|]);
    (split; [lia|]); intros H1; specialize (Hfar H1); lia.
Qed.

Lemma updateBpm_frame_collapse_witness :
  let quarter := F32.div (F32.of_int 1) (F32.of_int 4) in
  updateBpm_frame quarter 44100 176396 = Some 44100
  ∧ ∃ f', F32.to_int (F32.mul (F32.of_int 176396) quarter) = Some f'
      ∧ f' <= 44100 <= f' + 6.
Proof.
  intros quarter.
  assert (H : updateBpm_frame quarter 44100 176396 = Some 44100)
    by (vm_compute; reflexivity).
  split; [exact H|].
  destruct (updateBpm_frame_collapse quarter 44100 176396 44100 H)
    as (f' & Hf' & Hb & _).
  exists f'. split; [exact Hf'|exact Hb].
Defined.

Lemma F32_mul_not_finite (y ratio : F32.float) :
  (∃ s, ratio = S754_infinity s) ∨ ratio = S754_nan ->
  F32.trunc (F32.mul y ratio) = None ∧ F32.floor (F32.mul y ratio) = None.
Proof.
  intros [[s ->]| ->]; destruct y; done.
Qed.

Lemma F32_div_zero (y : F32.float) (s : bool) :
  (∃ s', F32.div y (S754_zero s) = S754_infinity s')
  ∨ F32.div y (S754_zero s) = S754_nan.
Proof. destruct y; cbn; eauto. Qed.

Lemma F32_eqb_not_finite (ratio : F32.float) :
  (∃ s, ratio = S754_infinity s) ∨ ratio = S754_nan ->
  F32.eqb ratio F32.one = false.
Proof. intros [[[] ->]| ->]; reflexivity. Qed.

Lemma updateKeyFrames_None (g : Frame -> option Frame) (st : State) :
  m_actions st ≠ [] -> (∀ f, g f = None) -> Actions.updateKeyFrames g st = None.
Proof.
  intros Hne Hg. unfold Actions.updateKeyFrames.
  destruct (m_actions st) as [|a l]; [done|]. cbn. by rewrite Hg.
Qed.

(** X24. Division by zero.  When the store is not empty, the callback of
    the engine for a tempo change, [updateBpm (oldVal / newVal)], has no
    defined result for a new tempo of zero, whatever the old one; nor has
    [updateSamplerate] for a patch rate of 0 and another system rate.  The
    ratio is then an infinity or not a number, and so is its product with
    every frame, frame 0 included: the conversion to an integer is
    undefined. *)
Theorem rescale_by_zero_undefined (st : State) :
  m_actions st ≠ [] ->
  (∀ oldVal s quantizerStep,
     onBpmChange oldVal (S754_zero s) quantizerStep st = None)
  ∧ (∀ systemRate, systemRate ≠ 0 -> updateSamplerate systemRate 0 st = None).
Proof.
  intros Hne. split.
  - intros oldVal s q. unfold onBpmChange, updateBpm.
    pose proof (F32_div_zero oldVal s) as Hr.
    rewrite (F32_eqb_not_finite _ Hr).
    apply updateKeyFrames_None; [done|]. intros f.
    unfold updateBpm_frame, F32.to_int.
    by rewrite (proj1 (F32_mul_not_finite (F32.of_int f) _ Hr)).
  - intros sys Hsys. unfold updateSamplerate. rewrite decide_False by done.
    cbn zeta. change (F32.of_int 0) with (S754_zero false).
    pose proof (F32_div_zero (F32.of_int sys) false) as Hr.
    apply updateKeyFrames_None; [done|]. intros f.
    unfold updateSamplerate_frame, F32.floor_to_int.
    by rewrite (proj2 (F32_mul_not_finite (F32.of_int f) _ Hr)).
Qed.

Lemma rescale_by_zero_undefined_witness :
  m_actions envelopeState ≠ []
  ∧ onBpmChange (F32.of_int 120) (F32.of_int 0) 44100 envelopeState = None
  ∧ updateSamplerate 44100 0 envelopeState = None.
Proof.
  assert (H : m_actions envelopeState ≠ []) by discriminate.
  split; [exact H|]. split.
  - exact (proj1 (rescale_by_zero_undefined envelopeState H) (F32.of_int 120) false 44100).
  - apply (proj2 (rescale_by_zero_undefined envelopeState H)). lia.
Defined.

(** ** Sample triggers: editing *)


